(** * The task-manager test framework: a shallow embedding and its properties

    The development follows the TypeScript sources of the framework:
    - [services/TaskService.ts]      test data and the validation oracle;
    - [utils/WaitHelper.ts]          delay, backoff and polling;
    - [services/TestDataService.ts]  access to the persisted store;
    - [pages/TaskManagerPage.ts]     the page object of the application.

    Part I holds the embedding, Part II the properties. *)

From Stdlib Require Import ZArith Lia Ascii String.
From stdpp Require Import base strings list gmap pretty.

Open Scope string_scope.
Open Scope list_scope.

(* ===================================================================== *)
(** * Part I: the embedding                                               *)
(* ===================================================================== *)

(** ** JavaScript values *)

(** What an [await]ed call comes back with: a value, or a raised failure. *)
Inductive JsError : Type :=
| SyntaxError
| TimeoutError
| StrictModeViolation
| OtherError (msg : string).

Inductive completion (A : Type) : Type :=
| Returned (a : A)
| Threw (e : JsError).
Arguments Returned {A} a.
Arguments Threw {A} e.

(** A property of an object literal: the key is missing, or it is there and
    holds [undefined], or it holds a value.  Reading a missing key gives
    [undefined]; an object spread copies every key that is there. *)
Inductive slot (A : Type) : Type :=
| Missing
| Undefined
| Value (a : A).
Arguments Missing {A}.
Arguments Undefined {A}.
Arguments Value {A} a.

#[global] Instance slot_eq_dec {A} `{EqDecision A} : EqDecision (slot A).
Proof. solve_decision. Defined.

(** [obj.key] : [None] stands for [undefined]. *)
Definition read {A} (s : slot A) : option A :=
  match s with
  | Value a => Some a
  | _ => None
  end.

(** One key of [{ ...d, ...o }]. *)
Definition spread {A} (d o : slot A) : slot A :=
  match o with
  | Missing => d
  | _ => o
  end.

(** Truthiness of a string-valued property: [undefined] and [''] are falsy. *)
Definition truthy (v : option string) : bool :=
  match v with
  | Some s => negb (bool_decide (s = ""))
  | None => false
  end.

(** [arr.push(x)] and [arr.includes(x)]. *)
Definition push {A} (x : A) (arr : list A) : list A := arr ++ [x].

Definition includes (arr : list string) (x : string) : bool :=
  bool_decide (x ∈ arr).

(** [xs.forEach(body)], the body acting on the state it closes over. *)
Definition forEach {A S} (xs : list A) (body : A → S → S) (s : S) : S :=
  fold_left (λ acc x, body x acc) xs s.

(** Strings are sequences of 8-bit code units: texts of characters up to
    U+00FF, which is all the framework's own data uses; texts with
    characters beyond are outside the embedding.  The white space and line
    terminators of ECMAScript in that range are U+0009..U+000D, U+0020 and
    U+00A0. *)
Definition is_js_space (c : ascii) : bool :=
  let n := nat_of_ascii c in
  ((9 <=? n) && (n <=? 13) || (n =? 32) || (n =? 160))%nat.

Fixpoint trimStart (s : string) : string :=
  match s with
  | EmptyString => EmptyString
  | String c s' => if is_js_space c then trimStart s' else s
  end.

Fixpoint trimEnd (s : string) : string :=
  match s with
  | EmptyString => EmptyString
  | String c s' =>
      let t := trimEnd s' in
      if is_js_space c && bool_decide (t = "") then EmptyString else String c t
  end.

Definition trim (s : string) : string := trimEnd (trimStart s).

(** The character class [[A-Z]]. *)
Definition is_A_Z (c : ascii) : bool :=
  ((65 <=? nat_of_ascii c) && (nat_of_ascii c <=? 90))%nat.

(** [/^[A-Z]/.test(s)] *)
Definition test_starts_A_Z (s : string) : bool :=
  match s with
  | String c _ => is_A_Z c
  | EmptyString => false
  end.

(** ** TaskService *)

(** [interface Task]; [Partial<Task>] is the same record with [title]
    allowed to be missing.  The two enumerations are carried as strings, as
    they are at run time: the oracle checks them by [includes], and the
    service itself builds tasks with ['Invalid' as any]. *)
Record Task : Type := mkTask {
  title : slot string;
  description : slot string;
  importance : slot string;
  label : slot string;
  completed : slot bool
}.

Definition empty_object : Task :=
  mkTask Missing Missing Missing Missing Missing.

Definition default_task : Task :=
  {| title := Value "Test Task";
     description := Value "Test description";
     importance := Value "Medium";
     label := Value "Work";
     completed := Value false |}.

(** [{ title: 'Test Task', ..., completed: false, ...overrides }];
    [overrides] is an optional argument, and spreading [undefined] adds
    nothing. *)
Definition createValidTask (overrides : option Task) : Task :=
  match overrides with
  | None => default_task
  | Some o =>
      {| title := spread (title default_task) (title o);
         description := spread (description default_task) (description o);
         importance := spread (importance default_task) (importance o);
         label := spread (label default_task) (label o);
         completed := spread (completed default_task) (completed o) |}
  end.

Definition importances : list string := ["High"; "Medium"; "Low"].
Definition labels : list string := ["Work"; "Social"; "Home"; "Hobby"].
Definition completedStates : list bool := [true; false].

Definition combination (imp lab : string) (done : bool) : Task :=
  {| title := Value ("Task " +:+ imp +:+ " " +:+ lab +:+ " "
                       +:+ (if done then "Done" else "Pending"));
     description := Value ("Task with " +:+ imp +:+ " importance, " +:+ lab
                       +:+ " label, "
                       +:+ (if done then "completed" else "pending"));
     importance := Value imp;
     label := Value lab;
     completed := Value done |}.

(** Three nested [forEach] loops pushing onto [combinations]. *)
Definition generateAllCombinations : list Task :=
  let combinations : list Task := [] in
  forEach importances (λ imp,
    forEach labels (λ lab,
      forEach completedStates (λ done,
        push (combination imp lab done))))
    combinations.

Record ValidationResult : Type := mkResult {
  valid : bool;
  errors : list string
}.

(** The two objects the body of [validateTask] can reach: its argument and
    the local array [errors]. *)
Record Frame : Type := mkFrame {
  task_of : Task;
  errors_of : list string
}.

(** [if (cond(task)) { errors.push(msg); }] *)
Definition push_if (cond : Task → bool) (msg : string) (fr : Frame) : Frame :=
  if cond (task_of fr)
  then {| task_of := task_of fr; errors_of := push msg (errors_of fr) |}
  else fr.

Definition title_missing (t : Task) : bool :=
  negb (truthy (read (title t)))
  || match read (title t) with
     | Some s => bool_decide (trim s = "")
     | None => false
     end.

Definition title_not_capital (t : Task) : bool :=
  truthy (read (title t))
  && match read (title t) with
     | Some s => negb (test_starts_A_Z s)
     | None => false
     end.

Definition importance_missing (t : Task) : bool :=
  negb (truthy (read (importance t))).

Definition importance_invalid (t : Task) : bool :=
  truthy (read (importance t))
  && match read (importance t) with
     | Some s => negb (includes ["High"; "Medium"; "Low"] s)
     | None => false
     end.

Definition label_invalid (t : Task) : bool :=
  truthy (read (label t))
  && match read (label t) with
     | Some s => negb (includes ["Work"; "Social"; "Home"; "Hobby"] s)
     | None => false
     end.

Definition validateTask_body (fr : Frame) : Frame :=
  let fr := push_if title_missing "Title is required" fr in
  let fr := push_if title_not_capital "Title should start with a capital letter" fr in
  let fr := push_if importance_missing "Importance is required" fr in
  let fr := push_if importance_invalid "Invalid importance value" fr in
  let fr := push_if label_invalid "Invalid label value" fr in
  fr.

Definition validateTask (task : Task) : ValidationResult :=
  let fr := validateTask_body {| task_of := task; errors_of := [] |} in
  {| valid := (length (errors_of fr) =? 0)%nat; errors := errors_of fr |}.

(** The validity rule as the specification words it: the title is non-empty
    and starts with an upper-case letter, the importance is absent or one of
    the three values, the label is absent or one of the four. *)
Definition spec_valid (t : Task) : Prop :=
  (∃ c rest, read (title t) = Some (String c rest) ∧ is_A_Z c = true)
  ∧ (read (importance t) = None
     ∨ ∃ i, read (importance t) = Some i ∧ i ∈ ["Low"; "Medium"; "High"])
  ∧ (read (label t) = None
     ∨ ∃ l, read (label t) = Some l ∧ l ∈ ["Work"; "Social"; "Home"; "Hobby"]).

(** The rule the oracle implements. *)
Definition code_valid (t : Task) : Prop :=
  (∃ c rest, read (title t) = Some (String c rest) ∧ is_A_Z c = true)
  ∧ (∃ i, read (importance t) = Some i ∧ i ∈ ["High"; "Medium"; "Low"])
  ∧ (read (label t) = None ∨ read (label t) = Some ""
     ∨ ∃ l, read (label t) = Some l ∧ l ∈ ["Work"; "Social"; "Home"; "Hobby"]).

(** The triple a generated task stands for. *)
Definition triple (t : Task) : option string * option string * option bool :=
  (read (importance t), read (label t), read (completed t)).

(** ** WaitHelper *)

(** One step of a run as an observer sees it: the awaited predicate came
    back with [r], or the helper slept for [ms]. *)
Inductive event : Type :=
| Invoked (r : completion bool)
| Waited (ms : Z).

Definition default_maxAttempts : Z := 5.
Definition default_initialDelay : Z := 1000.
Definition default_timeoutMs : Z := 10000.
Definition default_intervalMs : Z := 500.

Section WaitHelper.

(** Everything an awaited call can observe or change: the page, the clock,
    whatever the predicate closes over. *)
Variable World : Type.

(** [Date.now()] *)
Variable now : World → Z.

(** The world at the moment a timer set for [ms] milliseconds has fired. *)
Variable sleep : Z → World → World.

(** [() => Promise<boolean>] *)
Definition Async : Type := World → completion bool * World.

Record Run : Type := mkRun {
  outcome : completion bool;
  final : World;
  trace : list event
}.

Definition emit (e : event) (r : option Run) : option Run :=
  match r with
  | Some r => Some {| outcome := outcome r; final := final r; trace := e :: trace r |}
  | None => None
  end.

(** [new Promise((resolve) => setTimeout(resolve, milliseconds))] *)
Definition wait (milliseconds : Z) (w : World) : World := sleep milliseconds w.

(** The [for] loop of [waitWithBackoff], entered with the current values of
    [attempt] and [delay]; [fuel] bounds the number of iterations. *)
Fixpoint backoff_loop (fuel : nat) (action : Async) (maxAttempts : Z)
    (attempt delay : Z) (w : World) : option Run :=
  match fuel with
  | O => None
  | S fuel' =>
      if attempt <? maxAttempts then
        let (result, w1) := action w in
        match result with
        | Threw e =>
            Some {| outcome := Threw e; final := w1; trace := [Invoked result] |}
        | Returned true =>
            Some {| outcome := Returned true; final := w1; trace := [Invoked result] |}
        | Returned false =>
            if attempt <? maxAttempts - 1 then
              emit (Invoked result) (emit (Waited delay)
                (backoff_loop fuel' action maxAttempts (attempt + 1) (delay * 2)
                   (wait delay w1)))
            else
              emit (Invoked result)
                (backoff_loop fuel' action maxAttempts (attempt + 1) delay w1)
        end
      else Some {| outcome := Returned false; final := w; trace := [] |}
  end%Z.

Definition waitWithBackoff (action : Async) (maxAttempts initialDelay : Z)
    (w : World) : option Run :=
  let delay := initialDelay in
  backoff_loop (S (Z.to_nat maxAttempts)) action maxAttempts 0 delay w.

(** The [while] loop of [pollUntil]. *)
Fixpoint poll_loop (fuel : nat) (condition : Async) (timeoutMs intervalMs : Z)
    (startTime : Z) (w : World) : option Run :=
  match fuel with
  | O => None
  | S fuel' =>
      if now w - startTime <? timeoutMs then
        let (result, w1) := condition w in
        match result with
        | Returned true =>
            Some {| outcome := Returned true; final := w1; trace := [Invoked result] |}
        | _ =>
            emit (Invoked result) (emit (Waited intervalMs)
              (poll_loop fuel' condition timeoutMs intervalMs startTime
                 (wait intervalMs w1)))
        end
      else Some {| outcome := Returned false; final := w; trace := [] |}
  end%Z.

Definition pollUntil (fuel : nat) (condition : Async) (timeoutMs intervalMs : Z)
    (w : World) : option Run :=
  let startTime := now w in
  poll_loop fuel condition timeoutMs intervalMs startTime w.

End WaitHelper.

Arguments outcome {World} r.
Arguments final {World} r.
Arguments trace {World} r.
Arguments mkRun {World} outcome final trace.
Arguments emit {World} e r.
Arguments wait {World} sleep milliseconds w.
Arguments backoff_loop {World} sleep fuel action maxAttempts attempt delay w.
Arguments waitWithBackoff {World} sleep action maxAttempts initialDelay w.
Arguments poll_loop {World} now sleep fuel condition timeoutMs intervalMs startTime w.
Arguments pollUntil {World} now sleep fuel condition timeoutMs intervalMs w.

(** The results of the invocations in a trace, and the delays slept. *)
Definition invocations (tr : list event) : list (completion bool) :=
  omap (λ e, match e with Invoked r => Some r | Waited _ => None end) tr.

Definition waits (tr : list event) : list Z :=
  omap (λ e, match e with Waited ms => Some ms | Invoked _ => None end) tr.

Definition total_waited (tr : list event) : Z := foldr Z.add 0%Z (waits tr).

(** [k] failed attempts, each followed by a sleep, the delay doubling. *)
Fixpoint rounds (delay : Z) (k : nat) : list event :=
  match k with
  | O => []
  | S k' => Invoked (Returned false) :: Waited delay :: rounds (delay * 2) k'
  end.

(** Checks that were not satisfied, each followed by a sleep of the
    interval. *)
Fixpoint polls (intervalMs : Z) (rs : list (completion bool)) : list event :=
  match rs with
  | [] => []
  | r :: rs' => Invoked r :: Waited intervalMs :: polls intervalMs rs'
  end.

(** What a run of the backoff loop entered at [attempt] looks like: either
    no attempt is left, or [j] failed attempts are followed by a last one,
    whose result is the outcome, and which is the one numbered
    [maxAttempts - 1] if it failed too. *)
Definition backoff_shape {World} (action : Async World)
    (maxAttempts attempt delay : Z) (run : Run World) : Prop :=
  Forall (λ r, ∃ w', (action w').1 = r) (invocations (trace run))
  ∧ ((maxAttempts ≤ attempt ∧ trace run = [] ∧ outcome run = Returned false)%Z
     ∨ ∃ (j : nat) (r : completion bool),
         (attempt + Z.of_nat j < maxAttempts)%Z
         ∧ trace run = rounds delay j ++ [Invoked r]
         ∧ outcome run = r
         ∧ (r = Returned false → (attempt + Z.of_nat j = maxAttempts - 1)%Z)).

(** What a run of the polling loop looks like: checks that were not
    satisfied, then either a satisfied one, or the deadline. *)
Definition poll_shape {World} (now : World → Z) (condition : Async World)
    (timeoutMs intervalMs startTime : Z) (run : Run World) : Prop :=
  ∃ rs : list (completion bool),
    Forall (λ r, r ≠ Returned true ∧ ∃ w', (condition w').1 = r) rs
    ∧ ((outcome run = Returned true
        ∧ trace run = polls intervalMs rs ++ [Invoked (Returned true)]
        ∧ ∃ w', (condition w').1 = Returned true)
       ∨ (outcome run = Returned false
          ∧ trace run = polls intervalMs rs
          ∧ (timeoutMs ≤ now (final run) - startTime)%Z)).

(** A clock that only the timers move, by the delay asked for and by one
    millisecond at least. *)
Definition tick_clock (ms : Z) (w : Z) : Z := (w + Z.max 1 ms)%Z.

Definition always (r : completion bool) : Z → completion bool * Z :=
  λ w, (r, w).

(** A condition that holds from the instant [t] on. *)
Definition true_from (t : Z) : Z → completion bool * Z :=
  λ w, (Returned (t <=? w)%Z, w).

(** A condition that raises until the instant [t] and holds from then on,
    and one that does not hold until the instant [t] and raises from then
    on. *)
Definition raises_until (t : Z) : Z → completion bool * Z :=
  λ w, (if (w <? t)%Z then Threw (OtherError "not ready") else Returned true, w).

Definition raises_from (t : Z) : Z → completion bool * Z :=
  λ w, (if (w <? t)%Z then Returned false else Threw (OtherError "gone"), w).

(** *** The worlds a loop passes through

    What the two loops do is fixed by what the awaited predicate does in
    the worlds it is invoked in.  These worlds are computed here from the
    predicate and the timer alone, without the loops: a property that
    relates a loop to them says which invocations the loop makes, in which
    worlds, and what it makes of their results. *)

Section Iterates.

Context {World : Type}.
Variable sleep : Z → World → World.

(** The world in which attempt number [k], counted from 0, of a backoff
    that starts in [w] with the delay [delay] invokes the action, every
    earlier attempt having been followed by a sleep of the delay, which
    doubled. *)
Fixpoint attempt_world (action : Async World) (delay : Z) (k : nat) (w : World)
    : World :=
  match k with
  | O => w
  | S k' => attempt_world action (delay * 2) k' (sleep delay (action w).2)
  end.

(** What the action answers on attempt [k], and the world it leaves. *)
Definition attempt_result (action : Async World) (delay : Z) (k : nat) (w : World)
    : completion bool :=
  (action (attempt_world action delay k w)).1.

Definition after_attempt (action : Async World) (delay : Z) (k : nat) (w : World)
    : World :=
  (action (attempt_world action delay k w)).2.

(** The world in which check number [k], counted from 0, of a polling that
    starts in [w] invokes the condition, every earlier check having been
    followed by a sleep of the interval. *)
Fixpoint check_world (condition : Async World) (intervalMs : Z) (k : nat)
    (w : World) : World :=
  match k with
  | O => w
  | S k' => check_world condition intervalMs k' (sleep intervalMs (condition w).2)
  end.

Definition check_result (condition : Async World) (intervalMs : Z) (k : nat)
    (w : World) : completion bool :=
  (condition (check_world condition intervalMs k w)).1.

Definition after_check (condition : Async World) (intervalMs : Z) (k : nat)
    (w : World) : World :=
  (condition (check_world condition intervalMs k w)).2.

(** The answers to the checks 0, ..., [n - 1]. *)
Definition check_results (condition : Async World) (intervalMs : Z) (n : nat)
    (w : World) : list (completion bool) :=
  (λ k, check_result condition intervalMs k w) <$> seq 0 n.

End Iterates.

(** ** TestDataService *)

(** The two Web Storage areas of the page. *)
Record Storages : Type := mkStorages {
  localStorage : gmap string string;
  sessionStorage : gmap string string
}.

(** The page as the service changes it and a test sees it: the storages,
    and the tasks the running application holds and shows. *)
Record Page : Type := mkPage {
  storages : Storages;
  held : list Task
}.

(** [page.evaluate(script)] for a script that works on the storages: the
    running application is not told. *)
Definition evaluate (script : Storages → Storages) (pg : Page) : Page :=
  {| storages := script (storages pg); held := held pg |}.

Section TestDataService.

(** What [page.evaluate] hands back, with the empty array among it. *)
Variable JSValue : Type.
Variable emptyArray : JSValue.

(** [JSON.parse], which raises on a text that is not JSON. *)
Variable JSON_parse : string → completion JSValue.

(** [page.reload()]: the application under test starts again. *)
Variable reload : Page → Page.

(** [() => { localStorage.clear(); sessionStorage.clear(); }] *)
Definition clearStorages (p : Storages) : Storages :=
  {| localStorage := ∅; sessionStorage := ∅ |}.

Definition resetState (pg : Page) : Page :=
  reload (evaluate clearStorages pg).

(** [stored ? JSON.parse(stored) : []] with
    [stored = localStorage.getItem('tasks')]; [getItem] gives [null] for a
    key that is not there. *)
Definition getStoredTasks (p : Storages) : completion JSValue :=
  let stored := localStorage p !! "tasks" in
  match stored with
  | Some text => if truthy stored then JSON_parse text else Returned emptyArray
  | None => Returned emptyArray
  end.

End TestDataService.

Arguments getStoredTasks {JSValue} emptyArray JSON_parse p.

(** A stand-in for [JSON.parse] that knows one JSON text, the empty array. *)
Definition parse_empty_array (s : string) : completion (list Task) :=
  if bool_decide (s = "[]") then Returned [] else Threw SyntaxError.

(** Modelled from the spec: the application under test is not part of the
    repository.  The specification has it as a black box that keeps its
    tasks in the persisted store, under the one key [tasks], and says of a
    reload made after the storages were cleared that it returns the
    application to its initial, empty state.  So a reload starts the
    application again from what the store holds under [tasks]: with the
    key absent it holds no task; with the key present it holds what it
    makes of the stored text, [restore]; the storages stay as they are
    (the repository's bug report has the application write to the store
    when a task is added, and at no other time: Bug 2). *)
Definition reload_application (restore : string → list Task) (pg : Page) : Page :=
  {| storages := storages pg;
     held := match localStorage (storages pg) !! "tasks" with
             | Some text => restore text
             | None => []
             end |}.

Definition stored_empty_text : Storages :=
  {| localStorage := {[ "tasks" := "" ]}; sessionStorage := ∅ |}.

Definition stored_garbage : Storages :=
  {| localStorage := {[ "tasks" := "not json" ]};
     sessionStorage := {[ "draft" := "x" ]} |}.

(** A page whose application shows a task and whose store holds a text
    that is not JSON. *)
Definition page_in_use : Page :=
  {| storages := stored_garbage; held := [default_task] |}.

(** ** TaskManagerPage *)

(** What the locators of the page object can tell apart in the rendered
    page: the task cards ([.task-item]) with their heading, the description,
    importance and label they show, and their buttons; and the text inputs,
    text areas and selects found inside task cards, each kind in document
    order. *)
Record Card : Type := mkCard {
  h3 : string;
  p_description : string;
  p_importance : string;
  p_label : string;
  buttons : list string
}.

Record Dom : Type := mkDom {
  cards : list Card;
  textInputs : list string;
  textareas : list string;
  selects : list string
}.

(** A button, by the index of its card and its index inside the card. *)
Definition Element : Type := nat * nat.

Definition to_lower (c : ascii) : ascii :=
  if is_A_Z c then ascii_of_nat (nat_of_ascii c + 32) else c.

Fixpoint starts_with (fold : ascii → ascii) (p s : string) : bool :=
  match p, s with
  | EmptyString, _ => true
  | String a p', String b s' =>
      bool_decide (fold a = fold b) && starts_with fold p' s'
  | String _ _, EmptyString => false
  end.

Fixpoint contains (fold : ascii → ascii) (s needle : string) : bool :=
  starts_with fold needle s
  || match s with
     | String _ s' => contains fold s' needle
     | EmptyString => false
     end.

(** [:has-text("needle")]: the text holds the needle somewhere, whatever
    the case of the letters.  This is the driver's test on plain texts
    ([plain_text] below); the driver also folds runs of white space into
    one space before it compares, and a needle pasted into a selector
    between double quotes must hold no double quote and no backslash. *)
Definition has_text (text needle : string) : bool := contains to_lower text needle.

(** Texts on which [has_text] is the driver's test, whether as the needle
    pasted into a selector or as the text of an element: printable ASCII
    characters other than the double quote and the backslash, with single
    spaces between words and none at either end. *)
Definition plain_char (c : ascii) : bool :=
  let n := nat_of_ascii c in
  ((32 <=? n) && (n <=? 126) && negb (n =? 34) && negb (n =? 92))%nat.

Fixpoint spaced_plainly (after_space : bool) (s : string) : bool :=
  match s with
  | EmptyString => negb after_space
  | String c s' =>
      plain_char c
      && negb (after_space && bool_decide (c = " "%char))
      && spaced_plainly (bool_decide (c = " "%char)) s'
  end.

Definition plain_text (s : string) : bool :=
  match s with
  | EmptyString => true
  | String _ _ => spaced_plainly true s
  end.

(** [/Complete|Uncomplete/] *)
Definition matches_Complete_Uncomplete (text : string) : bool :=
  contains id text "Complete" || contains id text "Uncomplete".

(** The indices of the elements of [l] that satisfy [keep]. *)
Definition indices_where {A} (keep : A → bool) (l : list A) : list nat :=
  omap (λ '(i, x), if keep x then Some i else None) (imap pair l).

(** [page.locator(`.task-item:has(h3:has-text("${taskTitle}"))`)],
    resolved against the page as it is when an action needs it. *)
Definition getTaskByTitle (taskTitle : string) (d : Dom) : list nat :=
  indices_where (λ c, has_text (h3 c) taskTitle) (cards d).

(** [parent.locator('button...')]: the buttons inside the cards [parent]
    resolves to that satisfy [keep]. *)
Definition buttons_within (parent : list nat) (keep : string → bool) (d : Dom)
    : list Element :=
  i ← parent;
  match cards d !! i with
  | Some c => pair i <$> indices_where keep (buttons c)
  | None => []
  end.

(** An action on a locator needs the locator to resolve to one element: to
    none, the action times out; to several, the driver refuses. *)
Definition strict {A} (resolved : list A) : completion A :=
  match resolved with
  | [] => Threw TimeoutError
  | [e] => Returned e
  | _ :: _ :: _ => Threw StrictModeViolation
  end.

(** [locator.nth(n)], [locator.first()] being [nth(0)]. *)
Definition nth_of {A} (n : nat) (resolved : list A) : completion A :=
  match resolved !! n with
  | Some e => Returned e
  | None => Threw TimeoutError
  end.

(** An awaited driver call: it changes the page, and may fail. *)
Definition Driver (A : Type) : Type := Dom → completion A * Dom.

Definition andThen {A B} (m : Driver A) (k : A → Driver B) : Driver B :=
  λ d, match m d with
       | (Returned a, d') => k a d'
       | (Threw e, d') => (Threw e, d')
       end.

Definition idle : Driver unit := λ d, (Returned tt, d).

Notation "m ;;; k" := (andThen m (λ _, k))
  (at level 62, right associativity, only parsing).

(** The controls the edit form is filled through. *)
Inductive Control : Type := TextInput | Textarea | Select.

#[global] Instance Control_eq_dec : EqDecision Control.
Proof. solve_decision. Defined.

Definition controls (k : Control) (d : Dom) : list string :=
  match k with
  | TextInput => textInputs d
  | Textarea => textareas d
  | Select => selects d
  end.

Definition with_controls (k : Control) (l : list string) (d : Dom) : Dom :=
  match k with
  | TextInput => {| cards := cards d; textInputs := l; textareas := textareas d; selects := selects d |}
  | Textarea => {| cards := cards d; textInputs := textInputs d; textareas := l; selects := selects d |}
  | Select => {| cards := cards d; textInputs := textInputs d; textareas := textareas d; selects := l |}
  end.

(** The [n]-th control of a kind takes the value [v]; the call times out
    when there is no such control. *)
Definition set_value (k : Control) (n : nat) (v : string) : Driver unit :=
  λ d, match nth_of n (controls k d) with
       | Returned _ => (Returned tt, with_controls k (<[n := v]> (controls k d)) d)
       | Threw e => (Threw e, d)
       end.

(** [locator.clear()] and [locator.fill(v)] *)
Definition clear (k : Control) (n : nat) : Driver unit := set_value k n "".
Definition fill (k : Control) (n : nat) (v : string) : Driver unit := set_value k n v.

Section TaskManagerPage.

(** What the application under test does when a button is clicked. *)
Variable on_click : Element → Dom → Dom.

(** Whether the [n]-th select inside the task cards has an option for the
    value [v]. *)
Variable offers : nat → string → bool.

(** [locator.selectOption(v)] on the [n]-th select: the select takes the
    value when it has an option for it; when it has none, the call waits
    for one and times out, and the select shows what it showed. *)
Definition selectOption (n : nat) (v : string) : Driver unit :=
  λ d, if offers n v then set_value Select n v d else (Threw TimeoutError, d).

(** [locator.click()] *)
Definition click (resolve : Dom → completion Element) : Driver unit :=
  λ d, match resolve d with
       | Returned e => (Returned tt, on_click e d)
       | Threw err => (Threw err, d)
       end.

(** [page.waitForTimeout(ms)] lets time pass. *)
Definition waitForTimeout (ms : Z) : Driver unit := idle.

Definition toggleTaskCompletion (taskTitle : string) : Driver unit :=
  let taskCard := getTaskByTitle taskTitle in
  let toggleButton := λ d, buttons_within (taskCard d) matches_Complete_Uncomplete d in
  click (λ d, strict (toggleButton d)) ;;;
  waitForTimeout 300.

Definition deleteTask (taskTitle : string) : Driver unit :=
  let taskCard := getTaskByTitle taskTitle in
  let deleteButton := λ d, buttons_within (taskCard d) (λ b, has_text b "Delete") d in
  click (λ d, strict (deleteButton d)) ;;;
  waitForTimeout 300.

Definition clickEditTask (taskTitle : string) : Driver unit :=
  let taskCard := getTaskByTitle taskTitle in
  let editButton := λ d, buttons_within (taskCard d) (λ b, has_text b "Edit") d in
  click (λ d, strict (editButton d)) ;;;
  waitForTimeout 300.

(** [if (c) { ... }] *)
Definition when (c : bool) (m : Driver unit) : Driver unit :=
  if c then m else idle.

Definition fillEditForm (task : Task) : Driver unit :=
  when (bool_decide (read (title task) ≠ None))
    (clear TextInput 0 ;;; fill TextInput 0 (default "" (read (title task)))) ;;;
  when (bool_decide (read (description task) ≠ None))
    (clear Textarea 0 ;;; fill Textarea 0 (default "" (read (description task)))) ;;;
  when (truthy (read (importance task)))
    (selectOption 0 (default "" (read (importance task)))) ;;;
  when (truthy (read (label task)))
    (selectOption 1 (default "" (read (label task)))).

Definition all_task_items (d : Dom) : list nat := seq 0 (length (cards d)).

Definition saveEditedTask : Driver unit :=
  let saveButton := λ d,
    nth_of 0 (buttons_within (all_task_items d) (λ b, has_text b "Save") d) in
  click saveButton ;;;
  waitForTimeout 500.

Definition editTask (oldTitle : string) (newTask : Task) : Driver unit :=
  clickEditTask oldTitle ;;;
  fillEditForm newTask ;;;
  saveEditedTask.

End TaskManagerPage.

(** The controls [fillEditForm] writes for a given task. *)
Definition writes (task : Task) (k : Control) (n : nat) : bool :=
  match k, n with
  | TextInput, O => bool_decide (read (title task) ≠ None)
  | Textarea, O => bool_decide (read (description task) ≠ None)
  | Select, O => truthy (read (importance task))
  | Select, S O => truthy (read (label task))
  | _, _ => false
  end.

(** A driver call that leaves the cards alone, and the controls [keep]
    selects. *)
Definition untouched (keep : Control → nat → bool) (m : Driver unit) : Prop :=
  ∀ d, cards (m d).2 = cards d
       ∧ ∀ k n, keep k n = true → controls k (m d).2 !! n = controls k d !! n.

(** The document of the regression scenario: two cards under one title. *)
Definition card_of (t : string) : Card :=
  {| h3 := t; p_description := ""; p_importance := "Medium"; p_label := "Work";
     buttons := ["Complete"; "Edit"; "Delete"] |}.

Definition two_cards_one_title : Dom :=
  {| cards := [card_of "Task 4"; card_of "Task 4"];
     textInputs := []; textareas := []; selects := [] |}.

(** An application that removes the card whose button was clicked. *)
Definition remove_clicked_card (e : Element) (d : Dom) : Dom :=
  {| cards := delete (fst e) (cards d);
     textInputs := textInputs d; textareas := textareas d; selects := selects d |}.

(** The card [c] has the values the edit form shows on the page [d]. *)
Definition form_shows (c : Card) (d : Dom) : Prop :=
  textInputs d !! 0%nat = Some (h3 c)
  ∧ textareas d !! 0%nat = Some (p_description c)
  ∧ selects d !! 0%nat = Some (p_importance c)
  ∧ selects d !! 1%nat = Some (p_label c).

(** An application with inline editing: [Edit] opens a form on the card,
    showing the values [shown] picks for the card; [Save] stores in the
    card what the form shows and closes the form. *)
Definition inline_edit (shown : Card → Card) (e : Element) (d : Dom) : Dom :=
  match cards d !! e.1 with
  | None => d
  | Some c =>
      match buttons c !! e.2 with
      | Some "Edit" =>
          {| cards :=
               <[e.1 := {| h3 := h3 c; p_description := p_description c;
                           p_importance := p_importance c; p_label := p_label c;
                           buttons := ["Save"; "Cancel"] |}]> (cards d);
             textInputs := [h3 (shown c)];
             textareas := [p_description (shown c)];
             selects := [p_importance (shown c); p_label (shown c)] |}
      | Some "Save" =>
          {| cards :=
               <[e.1 := {| h3 := default (h3 c) (textInputs d !! 0%nat);
                           p_description :=
                             default (p_description c) (textareas d !! 0%nat);
                           p_importance :=
                             default (p_importance c) (selects d !! 0%nat);
                           p_label := default (p_label c) (selects d !! 1%nat);
                           buttons := ["Complete"; "Edit"; "Delete"] |}]> (cards d);
             textInputs := []; textareas := []; selects := [] |}
      | _ => d
      end
  end.

(** The form opens on the values of the card. *)
Definition inline_edit_app : Element → Dom → Dom := inline_edit id.

(** The application of the repository's bug report (Bug 10, "Editing With
    No Changes Resets Task Parameters"): the form opens with the title of
    the card, an empty description, and the selects on Low and Hobby. *)
Definition form_with_defaults (c : Card) : Card :=
  {| h3 := h3 c; p_description := ""; p_importance := "Low"; p_label := "Hobby";
     buttons := buttons c |}.

Definition resetting_edit_app : Element → Dom → Dom := inline_edit form_with_defaults.

(** The selects of the edit form: importance first, label second. *)
Definition offers_enumerated (n : nat) (v : string) : bool :=
  match n with
  | O => includes importances v
  | S O => includes labels v
  | _ => false
  end.

Definition detailed_card : Card :=
  {| h3 := "Old title"; p_description := "about"; p_importance := "High";
     p_label := "Social"; buttons := ["Complete"; "Edit"; "Delete"] |}.

Definition one_card : Dom :=
  {| cards := [detailed_card]; textInputs := []; textareas := []; selects := [] |}.

(** [{ title: 'New title' }] *)
Definition new_title_only : Task :=
  mkTask (Value "New title") Missing Missing Missing Missing.

(** ** Inputs the properties are tried on *)

Definition is_present {A} (s : slot A) : bool :=
  match s with
  | Missing => false
  | _ => true
  end.

(** [{ title: 'Valid Title' }] *)
Definition task_without_importance : Task :=
  mkTask (Value "Valid Title") Missing Missing Missing Missing.

(** [{ title: '' }] and [{ title: 'lowercase title' }] as overrides. *)
Definition override_empty_title : Task :=
  mkTask (Value "") Missing Missing Missing Missing.

Definition override_lowercase_title : Task :=
  mkTask (Value "lowercase title") Missing Missing Missing Missing.

(** The delays of [k] rounds of backoff. *)
Fixpoint delays (delay : Z) (k : nat) : list Z :=
  match k with
  | O => []
  | S k' => delay :: delays (delay * 2) k'
  end.

(** ** TaskService: the other factories *)

Definition minimal_task : Task :=
  {| title := Value "Minimal Task";
     description := Missing;
     importance := Value "Medium";
     label := Missing;
     completed := Missing |}.

(** [{ title: 'Minimal Task', importance: 'Medium', ...overrides }] *)
Definition createMinimalTask (overrides : option Task) : Task :=
  match overrides with
  | None => minimal_task
  | Some o =>
      {| title := spread (title minimal_task) (title o);
         description := spread (description minimal_task) (description o);
         importance := spread (importance minimal_task) (importance o);
         label := spread (label minimal_task) (label o);
         completed := spread (completed minimal_task) (completed o) |}
  end.

(** [{ title: t }] *)
Definition title_only (t : string) : Task :=
  mkTask (Value t) Missing Missing Missing Missing.

(** The [for] loop of [createMultipleTasks]; [`Task ${i + 1}`] prints the
    number in decimal. *)
Fixpoint createMultipleTasks_loop (fuel : nat) (count i : Z) (tasks : list Task)
    : option (list Task) :=
  match fuel with
  | O => None
  | S fuel' =>
      if (i <? count)%Z then
        createMultipleTasks_loop fuel' count (i + 1)
          (push (createValidTask (Some (title_only ("Task " +:+ pretty (i + 1)%Z))))
             tasks)
      else Some tasks
  end.

Definition createMultipleTasks (count : Z) : option (list Task) :=
  let tasks : list Task := [] in
  createMultipleTasks_loop (S (Z.to_nat count)) count 0 tasks.

(** The [switch] of [createInvalidTask], on the string it is given. *)
Definition createInvalidTask (type : string) : Task :=
  if bool_decide (type = "no-title") then
    mkTask (Value "") Missing (Value "Medium") Missing Missing
  else if bool_decide (type = "lowercase-title") then
    mkTask (Value "lowercase title") Missing (Value "Medium") Missing Missing
  else if bool_decide (type = "invalid-importance") then
    mkTask (Value "Valid Title") Missing (Value "Invalid") Missing Missing
  else if bool_decide (type = "invalid-label") then
    mkTask (Value "Valid Title") Missing (Value "Medium") (Value "Invalid") Missing
  else empty_object.

(** [Record<string, Task>], in the order the keys are written. *)
Definition generateTestScenarios : list (string * Task) :=
  [ ("highPriorityWork",
     mkTask (Value "Critical Work Task")
       (Value "This is a high priority work task") (Value "High") (Value "Work")
       (Value false));
    ("completedSocialTask",
     mkTask (Value "Completed Social Event") (Value "Attended the social event")
       (Value "Low") (Value "Social") (Value true));
    ("homeHobbyTask",
     mkTask (Value "Home Hobby Project") (Value "Work on home hobby project")
       (Value "Medium") (Value "Hobby") (Value false));
    ("minimalRequiredFields",
     mkTask (Value "Minimal Task") Missing (Value "Medium") Missing Missing) ].

(** [arr[k]]: [undefined] past the end. *)
Definition at_index {A} (arr : list A) (k : nat) : slot A :=
  match arr !! k with
  | Some x => Value x
  | None => Undefined
  end.

Definition random_titles : list string :=
  [ "Complete project documentation"; "Review pull requests";
    "Update dependencies"; "Fix critical bug"; "Implement new feature" ].

Definition random_descriptions : list string :=
  [ "This is a detailed description of the task";
    "Some important notes about this task";
    "Make sure to follow the guidelines"; "" ].

(** [createRandomTask], given what the five draws of [Math.random] come to:
    the four indices [Math.floor(Math.random() * pool.length)] and the
    outcome of [Math.random() > 0.5]. *)
Definition createRandomTask (kt kd ki kl : nat) (coin : bool) : Task :=
  let titles := random_titles in
  let descriptions := random_descriptions in
  let importances := ["High"; "Medium"; "Low"] in
  let labels := ["Work"; "Social"; "Home"; "Hobby"] in
  {| title := at_index titles kt;
     description := at_index descriptions kd;
     importance := at_index importances ki;
     label := at_index labels kl;
     completed := Value coin |}.

(** The messages of the oracle, in the order its checks come. *)
Definition all_messages : list string :=
  [ "Title is required"; "Title should start with a capital letter";
    "Importance is required"; "Invalid importance value"; "Invalid label value" ].

(** What the oracle accepts in an override: the key missing, or a value it
    accepts. *)
Definition override_ok (o : Task) : Prop :=
  (title o = Missing
   ∨ ∃ c rest, title o = Value (String c rest) ∧ is_A_Z c = true)
  ∧ (importance o = Missing
     ∨ ∃ i, importance o = Value i ∧ i ∈ ["High"; "Medium"; "Low"])
  ∧ (label o = Missing ∨ label o = Undefined ∨ label o = Value ""
     ∨ ∃ l, label o = Value l ∧ l ∈ ["Work"; "Social"; "Home"; "Hobby"]).

(** The task [createMultipleTasks] pushes for the loop index [i]. *)
Definition numbered_task (i : Z) : Task :=
  createValidTask (Some (title_only ("Task " +:+ pretty (i + 1)%Z))).

(** ** WaitHelper: several conditions at once *)

(** What a call [c()] of a condition comes to: it hands back a promise,
    which is fulfilled with a value or rejected with a failure, or the call
    itself throws and there is no promise (a condition that is not an
    [async] function can do that). *)
Inductive called : Type :=
| Resolved (b : bool)
| Rejected (e : JsError)
| Thrown (e : JsError).

(** [await c()]: a rejection and a throw both raise. *)
Definition awaited (r : called) : completion bool :=
  match r with
  | Resolved b => Returned b
  | Rejected e => Threw e
  | Thrown e => Threw e
  end.

Definition is_Thrown (r : called) : bool :=
  match r with Thrown _ => true | _ => false end.

(** The failures of the rejected promises of an array, and the values of
    the fulfilled ones. *)
Definition rejections (rs : list (completion bool)) : list JsError :=
  omap (λ r, match r with Threw e => Some e | Returned _ => None end) rs.

Definition fulfilments (rs : list (completion bool)) : list bool :=
  omap (λ r, match r with Returned b => Some b | Threw _ => None end) rs.

Section WaitForMany.

Variable World : Type.
Variable now : World → Z.
Variable sleep : Z → World → World.

(** [() => Promise<boolean>], called rather than awaited. *)
Definition Condition : Type := World → called * World.

(** Of the failures of the rejected promises of an array, in the order of
    the array, the one of the promise that was rejected first: which one
    that is depends on how the conditions run side by side. *)
Variable rejected_first : list JsError → JsError.

Definition cons_promise (p : completion bool)
    (rest : completion (list (completion bool)) * World)
    : completion (list (completion bool)) * World :=
  match rest with
  | (Returned ps, w) => (Returned (p :: ps), w)
  | (Threw e, w) => (Threw e, w)
  end.

(** [conditions.map(c => ...c()...)]: the conditions are called in the
    order of the array, each acting on the world the one before left, and
    [settle] is what the callback makes of the promise a call hands back.
    A call that throws ends the mapping: the conditions after it are not
    called, and there is no array. *)
Fixpoint invoke_each (settle : completion bool → completion bool)
    (conditions : list Condition) (w : World)
    : completion (list (completion bool)) * World :=
  match conditions with
  | [] => (Returned [], w)
  | c :: cs =>
      match c w with
      | (Thrown e, w1) => (Threw e, w1)
      | (Resolved b, w1) => cons_promise (settle (Returned b)) (invoke_each settle cs w1)
      | (Rejected e, w1) => cons_promise (settle (Threw e)) (invoke_each settle cs w1)
      end
  end.

(** [Promise.all]: the values in order when every promise is fulfilled,
    else the failure of the promise that was rejected first. *)
Definition Promise_all (rs : list (completion bool)) : completion (list bool) :=
  match rejections rs with
  | [] => Returned (fulfilments rs)
  | es => Threw (rejected_first es)
  end.

(** [.catch(() => false)] on a promise. *)
Definition catch_false (p : completion bool) : completion bool :=
  match p with
  | Threw _ => Returned false
  | Returned b => Returned b
  end.

(** The condition [waitForAll] polls:
    [results.every(r => r === true)] over
    [Promise.all(conditions.map(c => c()))]. *)
Definition all_hold (conditions : list Condition) : Async World :=
  λ w, match invoke_each id conditions w with
       | (Threw e, w') => (Threw e, w')
       | (Returned promises, w') =>
           match Promise_all promises with
           | Returned results =>
               (Returned (forallb (λ r, bool_decide (r = true)) results), w')
           | Threw e => (Threw e, w')
           end
       end.

(** The condition [waitForAny] polls:
    [results.some(r => r === true)] over
    [Promise.all(conditions.map(c => c().catch(() => false)))]. *)
Definition any_holds (conditions : list Condition) : Async World :=
  λ w, match invoke_each catch_false conditions w with
       | (Threw e, w') => (Threw e, w')
       | (Returned promises, w') =>
           match Promise_all promises with
           | Returned results =>
               (Returned (existsb (λ r, bool_decide (r = true)) results), w')
           | Threw e => (Threw e, w')
           end
       end.

Definition waitForAll (fuel : nat) (conditions : list Condition)
    (timeoutMs : Z) (w : World) : option (Run World) :=
  pollUntil now sleep fuel (all_hold conditions) timeoutMs default_intervalMs w.

Definition waitForAny (fuel : nat) (conditions : list Condition)
    (timeoutMs : Z) (w : World) : option (Run World) :=
  pollUntil now sleep fuel (any_holds conditions) timeoutMs default_intervalMs w.

(** Every condition called in turn, each in the world the one before
    left, whatever the calls come to. *)
Fixpoint call_each (conditions : list Condition) (w : World)
    : list called * World :=
  match conditions with
  | [] => ([], w)
  | c :: cs =>
      let (r, w1) := c w in
      let (rs, w2) := call_each cs w1 in
      (r :: rs, w2)
  end.

End WaitForMany.

Arguments Condition World : clear implicits.
Arguments cons_promise {World} p rest.
Arguments invoke_each {World} settle conditions w.
Arguments call_each {World} conditions w.
Arguments all_hold {World} rejected_first conditions.
Arguments any_holds {World} rejected_first conditions.
Arguments waitForAll {World} now sleep rejected_first fuel conditions timeoutMs w.
Arguments waitForAny {World} now sleep rejected_first fuel conditions timeoutMs w.

(** Conditions the properties are tried on: one whose promise is fulfilled
    with [b], one whose promise is rejected, one that throws when called;
    and a choice among rejected promises. *)
Definition resolves (b : bool) : Condition Z := λ w, (Resolved b, w).
Definition rejects : Condition Z := λ w, (Rejected (OtherError "rejected"), w).
Definition throws : Condition Z := λ w, (Thrown (OtherError "thrown"), w).

Definition first_in_array (es : list JsError) : JsError :=
  default (OtherError "none") (head es).

(** ** TestDataService: writing the store *)

Section SetStoredTasks.

(** [JSON.stringify] on an array of tasks. *)
Variable JSON_stringify : list Task → string.

(** [page.reload()], as far as the storages go: the application starts
    again on what they hold, and may write to them while it does. *)
Variable reload : Storages → Storages.

(** [(tasksToStore) => { localStorage.setItem('tasks',
    JSON.stringify(tasksToStore)); }] *)
Definition storeTasks (tasks : list Task) (p : Storages) : Storages :=
  {| localStorage := <["tasks" := JSON_stringify tasks]> (localStorage p);
     sessionStorage := sessionStorage p |}.

Definition setStoredTasks (tasks : list Task) (p : Storages) : Storages :=
  reload (storeTasks tasks p).

End SetStoredTasks.

(** A stand-in for [JSON.stringify] that knows the empty array. *)
Definition stringify_empty_array (tasks : list Task) : string :=
  match tasks with
  | [] => "[]"
  | _ :: _ => "[...]"
  end.

(** ** TaskManagerPage: reading the list *)

(** [locator.isVisible()]: it does not wait; a locator that resolves to
    nothing is not visible, one that resolves to several elements is
    refused; a card on the page is taken to be visible. *)
Definition isVisible {A} (resolved : list A) : completion bool :=
  match resolved with
  | [] => Returned false
  | [_] => Returned true
  | _ :: _ :: _ => Threw StrictModeViolation
  end.

(** [page.locator(`.task-item h3:has-text("${taskTitle}")`)
      .isVisible().catch(() => false)] *)
Definition isTaskVisible (taskTitle : string) (d : Dom) : bool :=
  let task := indices_where (λ c, has_text (h3 c) taskTitle) (cards d) in
  match isVisible task with
  | Returned b => b
  | Threw _ => false
  end.

(** [taskItems.count()] *)
Definition getTaskCount (d : Dom) : nat := length (cards d).

Section ClearAllTasks.

Variable on_click : Element → Dom → Dom.

(** The [while] loop of [clearAllTasks]: the heading of the first card is
    read, the task under that title deleted if the title is not empty, and
    the list of cards read again. *)
Fixpoint clearAllTasks (fuel : nat) (d : Dom) : option (completion unit * Dom) :=
  match fuel with
  | O => None
  | S fuel' =>
      match cards d with
      | [] => Some (Returned tt, d)
      | firstTask :: _ =>
          let title := h3 firstTask in
          if truthy (Some title) then
            match deleteTask on_click title d with
            | (Returned _, d') => clearAllTasks fuel' d'
            | (Threw e, d') => Some (Threw e, d')
            end
          else clearAllTasks fuel' d
      end
  end.

End ClearAllTasks.

(** Titles under which [clearAllTasks] finds one card at a time: none is
    empty, and none occurs inside a later one. *)
Fixpoint deletable (titles : list string) : Prop :=
  match titles with
  | [] => True
  | t :: rest =>
      t ≠ "" ∧ Forall (λ u, has_text u t = false) rest ∧ deletable rest
  end.

(** The page [fillEditForm] leaves when every control it needs is there. *)
Definition filled_form (task : Task) (d : Dom) : Dom :=
  {| cards := cards d;
     textInputs :=
       match read (title task) with
       | Some v => <[0%nat := v]> (textInputs d)
       | None => textInputs d
       end;
     textareas :=
       match read (description task) with
       | Some v => <[0%nat := v]> (textareas d)
       | None => textareas d
       end;
     selects :=
       let after_importance :=
         if truthy (read (importance task))
         then <[0%nat := default "" (read (importance task))]> (selects d)
         else selects d in
       if truthy (read (label task))
       then <[1%nat := default "" (read (label task))]> after_importance
       else after_importance |}.

Definition blank_title_first : Dom :=
  {| cards := [card_of ""; card_of "Task 2"];
     textInputs := []; textareas := []; selects := [] |}.

Definition open_form : Dom :=
  {| cards := [mkCard "Old title" "about" "Medium" "Work" ["Save"; "Cancel"]];
     textInputs := ["Old title"]; textareas := ["about"];
     selects := ["Medium"; "Work"] |}.

(** The task with its importance and label taken out, and the task with
    its label taken out: what a form has been given when a select refuses
    the importance, or the label. *)
Definition text_fields_only (task : Task) : Task :=
  mkTask (title task) (description task) Missing Missing (completed task).

Definition without_label (task : Task) : Task :=
  mkTask (title task) (description task) (importance task) Missing (completed task).

(** ** TaskManagerPage: the form that adds a task *)

(** The four controls of the form at the top of the page, which the page
    object takes to be there at all times. *)
Record TaskForm : Type := mkTaskForm {
  titleInput : string;
  descriptionTextarea : string;
  importanceSelect : string;
  labelSelect : string
}.

(** An awaited driver call on a control of the form. *)
Definition FormCall : Type := TaskForm → completion unit * TaskForm.

Definition form_then (m k : FormCall) : FormCall :=
  λ f, match m f with
       | (Returned _, f') => k f'
       | (Threw e, f') => (Threw e, f')
       end.

Definition form_when (c : bool) (m : FormCall) : FormCall :=
  if c then m else λ f, (Returned tt, f).

Definition fill_titleInput (v : string) : FormCall :=
  λ f, (Returned tt,
        {| titleInput := v; descriptionTextarea := descriptionTextarea f;
           importanceSelect := importanceSelect f; labelSelect := labelSelect f |}).

Definition fill_descriptionTextarea (v : string) : FormCall :=
  λ f, (Returned tt,
        {| titleInput := titleInput f; descriptionTextarea := v;
           importanceSelect := importanceSelect f; labelSelect := labelSelect f |}).

Section AddTaskForm.

(** Whether the importance select (number 0) and the label select (number
    1) of the form have an option for the value [v]. *)
Variable offers : nat → string → bool.

(** [importanceSelect.selectOption(v)] and [labelSelect.selectOption(v)]:
    a select without an option for the value keeps what it shows, and the
    call times out. *)
Definition select_importance (v : string) : FormCall :=
  λ f, if offers 0 v then
         (Returned tt,
          {| titleInput := titleInput f; descriptionTextarea := descriptionTextarea f;
             importanceSelect := v; labelSelect := labelSelect f |})
       else (Threw TimeoutError, f).

Definition select_label (v : string) : FormCall :=
  λ f, if offers 1 v then
         (Returned tt,
          {| titleInput := titleInput f; descriptionTextarea := descriptionTextarea f;
             importanceSelect := importanceSelect f; labelSelect := v |})
       else (Threw TimeoutError, f).

Definition fillTaskForm (task : Task) : FormCall :=
  form_then
    (form_when (bool_decide (read (title task) ≠ None))
       (form_then (fill_titleInput "")
          (fill_titleInput (default "" (read (title task))))))
  (form_then
    (form_when (bool_decide (read (description task) ≠ None))
       (form_then (fill_descriptionTextarea "")
          (fill_descriptionTextarea (default "" (read (description task))))))
  (form_then
    (form_when (truthy (read (importance task)))
       (select_importance (default "" (read (importance task)))))
    (form_when (truthy (read (label task)))
       (select_label (default "" (read (label task))))))).

Definition clearForm : FormCall :=
  form_then (fill_titleInput "")
  (form_then (fill_descriptionTextarea "")
  (form_then (select_importance "Medium") (select_label "Work"))).

End AddTaskForm.

(** What a string-valued property comes to under [x || fallback]. *)
Definition or_else (v : option string) (fallback : string) : string :=
  if truthy v then default "" v else fallback.

(** The form once it has been given every field the task holds. *)
Definition given (task : Task) (f : TaskForm) : TaskForm :=
  {| titleInput := default (titleInput f) (read (title task));
     descriptionTextarea := default (descriptionTextarea f) (read (description task));
     importanceSelect := or_else (read (importance task)) (importanceSelect f);
     labelSelect := or_else (read (label task)) (labelSelect f) |}.

Definition form_showing_high : TaskForm :=
  {| titleInput := "Earlier task"; descriptionTextarea := "earlier";
     importanceSelect := "High"; labelSelect := "Home" |}.

(* ===================================================================== *)
(** * Part II: properties                                                 *)
(* ===================================================================== *)

Example validate_default :
  validateTask default_task = {| valid := true; errors := [] |}.
Proof. reflexivity. Qed.

Example validate_lowercase :
  validateTask (createValidTask (Some {| title := Value "lowercase title";
      description := Missing; importance := Missing; label := Missing;
      completed := Missing |}))
  = {| valid := false; errors := ["Title should start with a capital letter"] |}.
Proof. reflexivity. Qed.

Example validate_blank :
  errors (validateTask (mkTask (Value "  ") Missing Missing Missing Missing))
  = ["Title is required"; "Title should start with a capital letter";
     "Importance is required"].
Proof. reflexivity. Qed.

Example combinations_24 : length generateAllCombinations = 24%nat.
Proof. reflexivity. Qed.

Example backoff_three_false :
  waitWithBackoff tick_clock (always (Returned false)) 3 1000 0%Z
  = Some (mkRun (Returned false) 3000%Z
      [Invoked (Returned false); Waited 1000; Invoked (Returned false);
       Waited 2000; Invoked (Returned false)]).
Proof. reflexivity. Qed.

Example backoff_defaults :
  (λ r, waits (trace r))
    <$> waitWithBackoff tick_clock (always (Returned false))
          default_maxAttempts default_initialDelay 0%Z
  = Some [1000; 2000; 4000; 8000]%Z.
Proof. reflexivity. Qed.

Example poll_true_on_third_check :
  pollUntil id tick_clock 20 (true_from 1000) default_timeoutMs default_intervalMs 0%Z
  = Some (mkRun (Returned true) 1000%Z
      [Invoked (Returned false); Waited 500; Invoked (Returned false);
       Waited 500; Invoked (Returned true)]).
Proof. reflexivity. Qed.

Example poll_always_throwing :
  pollUntil id tick_clock 20 (always (Threw (OtherError "boom"))) 1000 400 0%Z
  = Some (mkRun (Returned false) 1200%Z
      [Invoked (Threw (OtherError "boom")); Waited 400;
       Invoked (Threw (OtherError "boom")); Waited 400;
       Invoked (Threw (OtherError "boom")); Waited 400]).
Proof. reflexivity. Qed.

Example delete_single :
  deleteTask remove_clicked_card "Task 1"
    (mkDom [card_of "Task 1"; card_of "Task 2"] [] [] [])
  = (Returned tt, mkDom [card_of "Task 2"] [] [] []).
Proof. reflexivity. Qed.

Example delete_duplicate :
  deleteTask remove_clicked_card "Task 4" two_cards_one_title
  = (Threw StrictModeViolation, two_cards_one_title).
Proof. reflexivity. Qed.

Example delete_prefix_title :
  fst (deleteTask remove_clicked_card "task 1"
    (mkDom [card_of "Task 1"; card_of "Task 10"] [] [] []))
  = Threw StrictModeViolation.
Proof. reflexivity. Qed.

Example fill_title_only :
  fillEditForm offers_enumerated (mkTask (Value "New") Missing Missing Missing Missing)
    (mkDom [] ["Old"] ["about"] ["Low"; "Home"])
  = (Returned tt, mkDom [] ["New"] ["about"] ["Low"; "Home"]).
Proof. reflexivity. Qed.

Example fill_invalid_importance :
  fillEditForm offers_enumerated (createInvalidTask "invalid-importance")
    (mkDom [] ["Old"] ["about"] ["Low"; "Home"])
  = (Threw TimeoutError, mkDom [] ["Valid Title"] ["about"] ["Low"; "Home"]).
Proof. reflexivity. Qed.

Example stored_empty_text_read :
  getStoredTasks [] parse_empty_array stored_empty_text = Returned [].
Proof. reflexivity. Qed.

Example stored_garbage_read :
  getStoredTasks [] parse_empty_array stored_garbage = Threw SyntaxError.
Proof. reflexivity. Qed.

Example edit_title_inline :
  editTask inline_edit_app offers_enumerated "Old title" new_title_only one_card
  = (Returned tt,
     mkDom [mkCard "New title" "about" "High" "Social" ["Complete"; "Edit"; "Delete"]]
       [] [] []).
Proof. reflexivity. Qed.

Example edit_title_resets_the_rest :
  editTask resetting_edit_app offers_enumerated "Old title" new_title_only one_card
  = (Returned tt,
     mkDom [mkCard "New title" "" "Low" "Hobby" ["Complete"; "Edit"; "Delete"]]
       [] [] []).
Proof. reflexivity. Qed.

Example plain_texts :
  plain_text "Task 1" = true ∧ plain_text "" = true
  ∧ plain_text "Task  1" = false ∧ plain_text " Task" = false
  ∧ plain_text "Task " = false
  ∧ plain_text (String (ascii_of_nat 34) "quoted") = false.
Proof. repeat split. Qed.

(** ** TaskService: the validation oracle *)

Lemma A_Z_not_space c : is_A_Z c = true → is_js_space c = false.
Proof.
  unfold is_A_Z, is_js_space. intros H.
  apply andb_prop in H as [H1 H2].
  apply Nat.leb_le in H1. apply Nat.leb_le in H2.
  repeat (apply orb_false_intro || apply andb_false_intro2);
    first [apply Nat.leb_gt | apply Nat.eqb_neq]; lia.
Qed.

Lemma trim_capital c rest : is_A_Z c = true → trim (String c rest) ≠ "".
Proof.
  intros H. unfold trim. simpl.
  rewrite (A_Z_not_space c H). simpl. rewrite (A_Z_not_space c H). simpl.
  discriminate.
Qed.

Lemma truthy_Some (v : option string) :
  truthy v = true ↔ ∃ s, v = Some s ∧ s ≠ "".
Proof.
  destruct v as [s|]; simpl.
  - case_bool_decide; simpl; split; try naive_solver.
  - naive_solver.
Qed.

Lemma title_ok (t : Task) :
  title_missing t = false ∧ title_not_capital t = false
  ↔ ∃ c rest, read (title t) = Some (String c rest) ∧ is_A_Z c = true.
Proof.
  unfold title_missing, title_not_capital.
  destruct (read (title t)) as [[|c rest]|]; simpl.
  - split; [intros [? _]; discriminate | intros (?&?&?&?); discriminate].
  - split.
    + intros [_ H]. exists c, rest. split; [done|].
      by destruct (is_A_Z c).
    + intros (c'&rest'&[= <- <-]&Hc). split.
      * case_bool_decide as Ht; [|done].
        exfalso. by apply (trim_capital c rest Hc).
      * by rewrite Hc.
  - split; [intros [? _]; discriminate | intros (?&?&?&?); discriminate].
Qed.

Lemma enumerated_ok (allowed : list string) (v : option string) :
  "" ∉ allowed →
  (truthy v = true ∧ truthy v && match v with
                                   | Some s => negb (includes allowed s)
                                   | None => false
                                   end = false)
  ↔ ∃ s, v = Some s ∧ s ∈ allowed.
Proof.
  intros Hne. unfold includes. split.
  - intros [Ht H]. rewrite Ht in H. simpl in H.
    apply truthy_Some in Ht as (s&->&_). exists s. split; [done|].
    by case_bool_decide.
  - intros (s&->&Hs). assert (s ≠ "") by (intros ->; done).
    assert (truthy (Some s) = true) as Ht by (apply truthy_Some; eauto).
    rewrite Ht. split; [done|]. simpl. by rewrite bool_decide_true.
Qed.

Lemma importance_ok (t : Task) :
  importance_missing t = false ∧ importance_invalid t = false
  ↔ ∃ i, read (importance t) = Some i ∧ i ∈ ["High"; "Medium"; "Low"].
Proof.
  unfold importance_missing, importance_invalid.
  rewrite <- enumerated_ok by set_solver.
  rewrite negb_false_iff. done.
Qed.

Lemma label_ok (t : Task) :
  label_invalid t = false
  ↔ read (label t) = None ∨ read (label t) = Some ""
    ∨ ∃ l, read (label t) = Some l ∧ l ∈ ["Work"; "Social"; "Home"; "Hobby"].
Proof.
  unfold label_invalid.
  destruct (truthy (read (label t))) eqn:Ht.
  - pose proof (enumerated_ok ["Work"; "Social"; "Home"; "Hobby"] (read (label t))) as E.
    rewrite Ht in E. simpl in *. split.
    + intros H. right. right. apply E; [set_solver|done].
    + intros [H|[H|H]].
      * rewrite H in Ht. discriminate.
      * rewrite H in Ht. discriminate.
      * apply E in H; [|set_solver]. tauto.
  - simpl. split; [intros _|done].
    destruct (read (label t)) as [s|]; [|by left].
    right. left. simpl in Ht. apply negb_false_iff in Ht.
    f_equal. by apply bool_decide_eq_true in Ht.
Qed.

Lemma push_if_task cond msg fr : task_of (push_if cond msg fr) = task_of fr.
Proof. unfold push_if. by destruct (cond (task_of fr)). Qed.

Lemma push_if_errors cond msg fr :
  errors_of (push_if cond msg fr)
  = if cond (task_of fr) then push msg (errors_of fr) else errors_of fr.
Proof. unfold push_if. by destruct (cond (task_of fr)). Qed.

Lemma validateTask_body_keeps_task (fr : Frame) :
  task_of (validateTask_body fr) = task_of fr.
Proof. unfold validateTask_body. by rewrite !push_if_task. Qed.

Lemma push_not_nil {A} (x : A) (l : list A) : push x l ≠ [].
Proof. unfold push. by destruct l. Qed.

Lemma push_if_errors_nil cond msg fr :
  errors_of (push_if cond msg fr) = []
  ↔ errors_of fr = [] ∧ cond (task_of fr) = false.
Proof.
  rewrite push_if_errors. destruct (cond (task_of fr)).
  - split; [intros H; by apply push_not_nil in H | intros [_ ?]; done].
  - naive_solver.
Qed.

Lemma validateTask_errors_nil (t : Task) :
  errors (validateTask t) = []
  ↔ title_missing t = false ∧ title_not_capital t = false
    ∧ importance_missing t = false ∧ importance_invalid t = false
    ∧ label_invalid t = false.
Proof.
  unfold validateTask, validateTask_body.
  cbn [errors].
  rewrite !push_if_errors_nil, !push_if_task. cbn [task_of errors_of].
  naive_solver.
Qed.

Lemma validateTask_valid_errors (t : Task) :
  valid (validateTask t) = true ↔ errors (validateTask t) = [].
Proof.
  unfold validateTask. cbn [valid errors].
  destruct (errors_of _); cbn; split; intros; done.
Qed.

(** C1 (as amended).  For every task, [validateTask] answers [valid] exactly
    when the title is non-empty with a first character in A..Z, the
    importance is present and one of High, Medium, Low, and the label is
    absent, empty, or one of Work, Social, Home, Hobby; the list of errors
    is empty exactly when [valid] is true; the task the body ends with is
    the task it was given. *)
Theorem validateTask_valid_iff (t : Task) :
  (valid (validateTask t) = true ↔ code_valid t)
  ∧ (errors (validateTask t) = [] ↔ valid (validateTask t) = true)
  ∧ task_of (validateTask_body {| task_of := t; errors_of := [] |}) = t.
Proof.
  split; [|split].
  - rewrite validateTask_valid_errors, validateTask_errors_nil.
    unfold code_valid.
    rewrite <- title_ok, <- importance_ok, <- label_ok. tauto.
  - symmetry. apply validateTask_valid_errors.
  - apply validateTask_body_keeps_task.
Qed.

(** C1, as the specification states it, fails on a task that has a valid
    title and no importance: the specification counts it valid, the oracle
    reports [Importance is required]. *)
Lemma validateTask_importance_absent_counterexample :
  spec_valid task_without_importance
  ∧ validateTask task_without_importance
    = {| valid := false; errors := ["Importance is required"] |}
  ∧ ¬ (valid (validateTask task_without_importance) = true
       ↔ spec_valid task_without_importance).
Proof.
  assert (spec_valid task_without_importance) as Hs.
  { split; [|split].
    - eexists _, _. split; reflexivity.
    - by left.
    - by left. }
  split; [done|]. split; [reflexivity|].
  intros [_ H]. specialize (H Hs). discriminate.
Qed.

(** ** TaskService: generated data *)

Lemma generateAllCombinations_unfold :
  generateAllCombinations
  = imp ← importances; lab ← labels; done ← completedStates;
    [combination imp lab done].
Proof. reflexivity. Qed.

(** C2.  [generateAllCombinations] returns 24 tasks whose triples
    (importance, label, completed) are pairwise distinct; each of the
    3 x 4 x 2 triples occurs exactly once; every task of the list is the
    record built for its triple, title included, and no two tasks share a
    title; the list is a constant. *)
Theorem generateAllCombinations_covers :
  length generateAllCombinations = 24%nat
  ∧ NoDup (triple <$> generateAllCombinations)
  ∧ (∀ imp lab done, imp ∈ importances → lab ∈ labels →
       length (filter (λ t, triple t = (Some imp, Some lab, Some done))
                 generateAllCombinations) = 1%nat)
  ∧ (∀ t, t ∈ generateAllCombinations →
       ∃ imp lab done, imp ∈ importances ∧ lab ∈ labels
         ∧ triple t = (Some imp, Some lab, Some done)
         ∧ t = combination imp lab done
         ∧ title t = Value ("Task " +:+ imp +:+ " " +:+ lab +:+ " "
                             +:+ (if done then "Done" else "Pending")))
  ∧ NoDup (title <$> generateAllCombinations).
Proof.
  split; [reflexivity|]. split; [|split; [|split]].
  - apply (bool_decide_unpack _). vm_compute. exact I.
  - intros imp lab done Hi Hl.
    unfold importances in Hi. unfold labels in Hl.
    repeat match goal with
           | H : _ ∈ _ :: _ |- _ => apply elem_of_cons in H as [->|H]
           | H : _ ∈ [] |- _ => by apply elem_of_nil in H
           end; destruct done; vm_compute; reflexivity.
  - intros t Ht. rewrite generateAllCombinations_unfold in Ht.
    apply list_elem_of_bind in Ht as (imp&Ht&Hi).
    apply list_elem_of_bind in Ht as (lab&Ht&Hl).
    apply list_elem_of_bind in Ht as (done&Ht&_).
    apply list_elem_of_singleton in Ht as ->.
    exists imp, lab, done. repeat split; done.
  - apply (bool_decide_unpack _). vm_compute. exact I.
Qed.

Lemma generateAllCombinations_covers_witness :
  length (filter (λ t, triple t = (Some "Low", Some "Hobby", Some false))
            generateAllCombinations) = 1%nat.
Proof.
  destruct generateAllCombinations_covers as (_ & _ & Honce & _).
  apply Honce.
  - unfold importances. set_solver.
  - unfold labels. set_solver.
Defined.

(** C10.  Each field of [createValidTask(o)] is [o]'s when [o] has the key
    and the default otherwise (Test Task, Test description, Medium, Work,
    false); without an argument the defaults come back; nothing is
    validated, and with the title [''] or [lowercase title] in [o] the task
    returned fails [validateTask]. *)
Theorem createValidTask_merges (o : Task) :
  let r := createValidTask (Some o) in
  title r = (if is_present (title o) then title o else Value "Test Task")
  ∧ description r
    = (if is_present (description o) then description o else Value "Test description")
  ∧ importance r
    = (if is_present (importance o) then importance o else Value "Medium")
  ∧ label r = (if is_present (label o) then label o else Value "Work")
  ∧ completed r
    = (if is_present (completed o) then completed o else Value false)
  ∧ createValidTask None = default_task
  ∧ validateTask (createValidTask (Some override_empty_title))
    = {| valid := false; errors := ["Title is required"] |}
  ∧ validateTask (createValidTask (Some override_lowercase_title))
    = {| valid := false;
         errors := ["Title should start with a capital letter"] |}.
Proof.
  simpl. unfold spread.
  repeat split; try reflexivity.
  - by destruct (title o).
  - by destruct (description o).
  - by destruct (importance o).
  - by destruct (label o).
  - by destruct (completed o).
Qed.

(** ** WaitHelper: traces *)

Lemma rounds_app_invoked_head delay j r :
  ∃ r' rest, rounds delay j ++ [Invoked r] = Invoked r' :: rest.
Proof. destruct j; simpl; eauto. Qed.

Lemma rounds_split_other delay j r pre x post :
  x ≠ Returned false →
  rounds delay j ++ [Invoked r] = pre ++ Invoked x :: post →
  pre = rounds delay j ∧ x = r ∧ post = [].
Proof.
  intros Hx. revert delay pre.
  induction j as [|j IH]; intros delay pre E; simpl in E.
  - destruct pre as [|a pre]; simpl in E.
    + by injection E as <- <-.
    + injection E as _ E. by destruct pre.
  - destruct pre as [|a [|b pre]]; simpl in E.
    + injection E as E _. congruence.
    + injection E as _ E _. discriminate.
    + injection E as <- <- E.
      destruct (IH _ _ E) as (-> & -> & ->). done.
Qed.

Lemma rounds_split_false delay j r pre post :
  rounds delay j ++ [Invoked r] = pre ++ Invoked (Returned false) :: post →
  (pre = rounds delay j ∧ r = Returned false ∧ post = [])
  ∨ ∃ ms r' post', post = Waited ms :: Invoked r' :: post'.
Proof.
  revert delay pre.
  induction j as [|j IH]; intros delay pre E; simpl in E.
  - destruct pre as [|a pre]; simpl in E.
    + left. by injection E as -> <-.
    + injection E as _ E. by destruct pre.
  - destruct pre as [|a [|b pre]]; simpl in E.
    + right. injection E as <-.
      destruct (rounds_app_invoked_head (delay * 2) j r) as (r' & rest & ->).
      eauto.
    + injection E as _ E _. discriminate.
    + injection E as <- <- E.
      destruct (IH _ _ E) as [(-> & -> & ->)|?]; [by left | by right].
Qed.

Lemma invocations_rounds delay j r :
  invocations (rounds delay j ++ [Invoked r])
  = replicate j (Returned false) ++ [r].
Proof.
  revert delay. induction j as [|j IH]; intros delay; [done|].
  simpl. unfold invocations in *. simpl. by rewrite IH.
Qed.

Lemma waits_rounds delay j r :
  waits (rounds delay j ++ [Invoked r]) = delays delay j.
Proof.
  revert delay. induction j as [|j IH]; intros delay; [done|].
  simpl. unfold waits in *. simpl. by rewrite IH.
Qed.

Lemma rounds_no_trailing_wait delay j r tr ms :
  rounds delay j ++ [Invoked r] ≠ tr ++ [Waited ms].
Proof.
  intros E. apply app_inj_tail in E as [_ E]. discriminate.
Qed.

Lemma polls_split intervalMs rs pre r post :
  polls intervalMs rs = pre ++ Invoked r :: post →
  ∃ post', post = Waited intervalMs :: post'.
Proof.
  revert pre. induction rs as [|r0 rs IH]; intros pre E; simpl in E.
  - by destruct pre.
  - destruct pre as [|a [|b pre]]; simpl in E.
    + injection E as _ <-. eauto.
    + injection E as _ E _. discriminate.
    + injection E as _ _ E. eauto.
Qed.

Lemma polls_app_split intervalMs rs last pre e post :
  polls intervalMs rs ++ [Invoked last] = pre ++ Invoked (Threw e) :: post →
  last ≠ Threw e →
  ∃ post', post = Waited intervalMs :: post'.
Proof.
  revert pre. induction rs as [|r0 rs IH]; intros pre E Hl; simpl in E.
  - destruct pre as [|a pre]; simpl in E.
    + injection E as E _. congruence.
    + injection E as _ E. by destruct pre.
  - destruct pre as [|a [|b pre]]; simpl in E.
    + injection E as _ <-. eauto.
    + injection E as _ E _. discriminate.
    + injection E as _ _ E. eauto.
Qed.

Lemma invocations_polls intervalMs rs : invocations (polls intervalMs rs) = rs.
Proof.
  induction rs as [|r rs IH]; [done|].
  simpl. unfold invocations in *. simpl. by rewrite IH.
Qed.

Lemma elem_of_polls intervalMs rs r :
  Invoked r ∈ polls intervalMs rs ↔ r ∈ rs.
Proof.
  induction rs as [|r0 rs IH]; simpl.
  - by rewrite !elem_of_nil.
  - rewrite !elem_of_cons, IH. naive_solver.
Qed.

(** ** WaitHelper: the two loops *)

Section WaitHelperProperties.

Context {World : Type}.
Variable now : World → Z.
Variable sleep : Z → World → World.

Lemma backoff_loop_shape (action : Async World) (maxAttempts : Z) :
  ∀ (fuel : nat) (attempt delay : Z) (w : World),
    (Z.to_nat (maxAttempts - attempt) < fuel)%nat →
    ∃ run, backoff_loop sleep fuel action maxAttempts attempt delay w = Some run
           ∧ backoff_shape action maxAttempts attempt delay run.
Proof.
  induction fuel as [|fuel IH]; intros attempt delay w Hfuel; [lia|].
  simpl. destruct (Z.ltb_spec attempt maxAttempts) as [Hlt|Hge].
  2:{ eexists. split; [done|]. split; [constructor|]. left. done. }
  destruct (action w) as [result w1] eqn:Hact.
  assert (∃ w', (action w').1 = result) as Hfrom by (exists w; by rewrite Hact).
  destruct result as [[|]|e].
  - eexists. split; [done|]. split; [by repeat constructor|].
    right. exists 0%nat, (Returned true). simpl. repeat split; [lia|done].
  - destruct (Z.ltb_spec attempt (maxAttempts - 1)) as [Hmore|Hlast].
    + destruct (IH (attempt + 1)%Z (delay * 2)%Z (wait sleep delay w1))
        as (run & -> & Hinv & Hshape); [lia|].
      eexists. split; [done|]. simpl. split.
      { unfold invocations in *. simpl. by constructor. }
      destruct Hshape as [(? & _)|(j & r & Hj & Htr & Hout & Hr)]; [lia|].
      right. exists (S j), r. simpl. rewrite Htr.
      repeat split; [lia|done|intros ?; specialize (Hr ltac:(done)); lia].
    + destruct (IH (attempt + 1)%Z delay w1)
        as (run & -> & Hinv & Hshape); [lia|].
      eexists. split; [done|]. simpl. split.
      { unfold invocations in *. simpl. by constructor. }
      destruct Hshape as [(_ & Htr & Hout)|(j & r & Hj & _)]; [|lia].
      right. exists 0%nat, (Returned false). simpl. rewrite Htr.
      repeat split; [lia|done|lia].
  - eexists. split; [done|]. split; [by repeat constructor|].
    right. exists 0%nat, (Threw e). simpl. repeat split; [lia|done].
Qed.

Lemma waitWithBackoff_shape (action : Async World) (maxAttempts initialDelay : Z) w :
  ∃ run, waitWithBackoff sleep action maxAttempts initialDelay w = Some run
         ∧ backoff_shape action maxAttempts 0 initialDelay run.
Proof. unfold waitWithBackoff. apply backoff_loop_shape. lia. Qed.

Lemma poll_loop_shape (condition : Async World) (timeoutMs intervalMs startTime : Z) :
  ∀ (fuel : nat) (w : World) (run : Run World),
    poll_loop now sleep fuel condition timeoutMs intervalMs startTime w = Some run →
    poll_shape now condition timeoutMs intervalMs startTime run.
Proof.
  induction fuel as [|fuel IH]; intros w run E; [discriminate|].
  simpl in E. destruct (Z.ltb_spec (now w - startTime) timeoutMs) as [Hlt|Hge].
  2:{ injection E as <-. exists []. split; [constructor|]. right. done. }
  destruct (condition w) as [result w1] eqn:Hact.
  assert (∃ w', (condition w').1 = result) as Hfrom by (exists w; by rewrite Hact).
  assert (∀ run', result ≠ Returned true →
            poll_loop now sleep fuel condition timeoutMs intervalMs startTime
              (wait sleep intervalMs w1) = Some run' →
            poll_shape now condition timeoutMs intervalMs startTime
              (mkRun (outcome run') (final run')
                 (Invoked result :: Waited intervalMs :: trace run'))) as Hstep.
  { intros run' Hne E'. destruct (IH _ _ E') as (rs & Hrs & Hcase).
    exists (result :: rs). split; [by constructor|]. simpl.
    destruct Hcase as [(? & -> & ?)|(? & -> & ?)]; [by left | by right]. }
  destruct result as [[|]|e].
  - injection E as <-. exists []. split; [constructor|]. left. done.
  - destruct (poll_loop _ _ fuel _ _ _ _ _) as [run'|] eqn:E'; [|discriminate].
    injection E as <-. by apply Hstep.
  - destruct (poll_loop _ _ fuel _ _ _ _ _) as [run'|] eqn:E'; [|discriminate].
    injection E as <-. by apply Hstep.
Qed.

Lemma poll_loop_terminates (condition : Async World) (timeoutMs intervalMs startTime : Z) :
  (∀ ms w, now w < now (sleep ms w))%Z →
  (∀ w, now w ≤ now (condition w).2)%Z →
  ∀ (fuel : nat) (w : World),
    (Z.to_nat (timeoutMs - (now w - startTime)) < fuel)%nat →
    ∃ run, poll_loop now sleep fuel condition timeoutMs intervalMs startTime w = Some run.
Proof.
  intros Hsleep Hcond.
  induction fuel as [|fuel IH]; intros w Hfuel; [lia|].
  simpl. destruct (Z.ltb_spec (now w - startTime) timeoutMs) as [Hlt|Hge]; [|eauto].
  pose proof (Hcond w) as Hc.
  destruct (condition w) as [result w1]. simpl in Hc.
  pose proof (Hsleep intervalMs w1) as Hs.
  destruct (IH (wait sleep intervalMs w1)) as (run' & ->).
  { unfold wait. lia. }
  destruct result as [[|]|e]; simpl; eauto.
Qed.

Lemma poll_loop_more_fuel (condition : Async World) (timeoutMs intervalMs startTime : Z) :
  ∀ (fuel fuel' : nat) (w : World) (run : Run World),
    (fuel ≤ fuel')%nat →
    poll_loop now sleep fuel condition timeoutMs intervalMs startTime w = Some run →
    poll_loop now sleep fuel' condition timeoutMs intervalMs startTime w = Some run.
Proof.
  induction fuel as [|fuel IH]; intros fuel' w run Hle E; [discriminate|].
  destruct fuel' as [|fuel']; [lia|].
  simpl in *. destruct (now w - startTime <? timeoutMs)%Z; [|done].
  destruct (condition w) as [result w1].
  destruct result as [[|]|e]; [done| |];
    destruct (poll_loop _ _ fuel _ _ _ _ _) as [run'|] eqn:E'; try discriminate;
    rewrite (IH fuel' _ run' ltac:(lia) E'); done.
Qed.

Lemma backoff_loop_run (action : Async World) (maxAttempts : Z) :
  ∀ (n fuel : nat) (attempt delay : Z) (w : World),
    (S n < fuel)%nat →
    (attempt + Z.of_nat n < maxAttempts)%Z →
    (∀ k, (k < n)%nat → attempt_result sleep action delay k w = Returned false) →
    (attempt_result sleep action delay n w = Returned false →
       (attempt + Z.of_nat n = maxAttempts - 1)%Z) →
    backoff_loop sleep fuel action maxAttempts attempt delay w
    = Some (mkRun (attempt_result sleep action delay n w)
              (after_attempt sleep action delay n w)
              (rounds delay n ++ [Invoked (attempt_result sleep action delay n w)])).
Proof.
  induction n as [|n IH]; intros fuel attempt delay w Hfuel Hn Hfalse Hlast.
  - destruct fuel as [|[|fuel]]; [lia..|].
    unfold attempt_result, after_attempt in *. cbn [attempt_world] in *.
    cbn [backoff_loop rounds app].
    destruct (Z.ltb_spec attempt maxAttempts) as [_|?]; [|lia].
    destruct (action w) as [result w1]. cbn [fst snd] in *.
    destruct result as [[|]|e]; [done| |done].
    specialize (Hlast eq_refl).
    destruct (Z.ltb_spec attempt (maxAttempts - 1)) as [?|_]; [lia|].
    destruct (Z.ltb_spec (attempt + 1) maxAttempts) as [?|_]; [lia|]. done.
  - destruct fuel as [|fuel]; [lia|].
    pose proof (Hfalse 0%nat ltac:(lia)) as H0.
    unfold attempt_result, after_attempt in *. cbn [attempt_world] in *.
    cbn [backoff_loop rounds app].
    destruct (Z.ltb_spec attempt maxAttempts) as [_|?]; [|lia].
    destruct (action w) as [result w1] eqn:Hact. cbn [fst snd] in *. subst result.
    destruct (Z.ltb_spec attempt (maxAttempts - 1)) as [_|?]; [|lia].
    rewrite (IH fuel (attempt + 1)%Z (delay * 2)%Z (wait sleep delay w1));
      [done|lia|lia| |].
    + intros k Hk. specialize (Hfalse (S k) ltac:(lia)).
      cbn [attempt_world] in Hfalse. by rewrite Hact in Hfalse.
    + intros E. specialize (Hlast E). lia.
Qed.

Lemma backoff_loop_prefix (action : Async World) (maxAttempts : Z) :
  ∀ (n fuel : nat) (attempt delay : Z) (w : World),
    (Z.to_nat (maxAttempts - attempt) < fuel)%nat →
    (attempt + Z.of_nat n < maxAttempts)%Z →
    (∀ k, (k < n)%nat → attempt_result sleep action delay k w = Returned false) →
    ∃ run post,
      backoff_loop sleep fuel action maxAttempts attempt delay w = Some run
      ∧ trace run
        = rounds delay n ++ Invoked (attempt_result sleep action delay n w) :: post.
Proof.
  induction n as [|n IH]; intros fuel attempt delay w Hfuel Hn Hfalse.
  - destruct (backoff_loop_shape action maxAttempts fuel attempt delay w Hfuel)
      as (run & Hrun & _ & Hshape).
    exists run.
    destruct Hshape as [(? & _)|(j & r & _ & Htr & _)]; [lia|].
    destruct fuel as [|fuel]; [lia|].
    unfold attempt_result. cbn [attempt_world rounds app].
    revert Hrun. cbn [backoff_loop].
    destruct (Z.ltb_spec attempt maxAttempts) as [_|?]; [|lia].
    destruct (action w) as [result w1]. cbn [fst].
    destruct result as [[|]|e].
    + intros [= <-]. by exists [].
    + destruct (attempt <? maxAttempts - 1)%Z;
        destruct (backoff_loop _ fuel _ _ _ _ _) as [run'|]; try discriminate;
        intros [= <-]; eauto.
    + intros [= <-]. by exists [].
  - destruct fuel as [|fuel]; [lia|].
    pose proof (Hfalse 0%nat ltac:(lia)) as H0.
    unfold attempt_result in *. cbn [attempt_world] in *.
    cbn [backoff_loop rounds app].
    destruct (Z.ltb_spec attempt maxAttempts) as [_|?]; [|lia].
    destruct (action w) as [result w1] eqn:Hact. cbn [fst snd] in *. subst result.
    destruct (Z.ltb_spec attempt (maxAttempts - 1)) as [_|?]; [|lia].
    destruct (IH fuel (attempt + 1)%Z (delay * 2)%Z (wait sleep delay w1))
      as (run & post & -> & Htr); [lia|lia| |].
    + intros k Hk. specialize (Hfalse (S k) ltac:(lia)).
      cbn [attempt_world] in Hfalse. by rewrite Hact in Hfalse.
    + eexists _, post. split; [done|]. cbn [emit trace]. by rewrite Htr.
Qed.

Lemma check_results_S (condition : Async World) (intervalMs : Z) (n : nat) (w : World) :
  check_results sleep condition intervalMs (S n) w
  = (condition w).1
    :: check_results sleep condition intervalMs n (sleep intervalMs (condition w).2).
Proof.
  unfold check_results. cbn [seq fmap list_fmap]. f_equal.
  rewrite <- fmap_S_seq, <- list_fmap_compose. done.
Qed.

Lemma poll_loop_run (condition : Async World) (timeoutMs intervalMs startTime : Z) :
  ∀ (n fuel : nat) (w : World),
    (n < fuel)%nat →
    (∀ k, (k < n)%nat →
       (now (check_world sleep condition intervalMs k w) - startTime < timeoutMs)%Z
       ∧ check_result sleep condition intervalMs k w ≠ Returned true) →
    ((now (check_world sleep condition intervalMs n w) - startTime < timeoutMs)%Z →
     check_result sleep condition intervalMs n w = Returned true →
       poll_loop now sleep fuel condition timeoutMs intervalMs startTime w
       = Some (mkRun (Returned true) (after_check sleep condition intervalMs n w)
                 (polls intervalMs (check_results sleep condition intervalMs n w)
                  ++ [Invoked (Returned true)])))
    ∧ ((timeoutMs ≤ now (check_world sleep condition intervalMs n w) - startTime)%Z →
       poll_loop now sleep fuel condition timeoutMs intervalMs startTime w
       = Some (mkRun (Returned false) (check_world sleep condition intervalMs n w)
                 (polls intervalMs (check_results sleep condition intervalMs n w)))).
Proof.
  induction n as [|n IH]; intros fuel w Hfuel Hbefore.
  - destruct fuel as [|fuel]; [lia|].
    unfold check_result, after_check. cbn [check_world poll_loop].
    split.
    + intros Hlt Htrue.
      destruct (Z.ltb_spec (now w - startTime) timeoutMs) as [_|?]; [|lia].
      destruct (condition w) as [result w1]. cbn [fst snd] in *. by subst result.
    + intros Hge.
      destruct (Z.ltb_spec (now w - startTime) timeoutMs) as [?|_]; [lia|]. done.
  - destruct fuel as [|fuel]; [lia|].
    destruct (Hbefore 0%nat ltac:(lia)) as [Hlt Hne].
    destruct (IH fuel (sleep intervalMs (condition w).2) ltac:(lia)) as [IHt IHf].
    { intros k Hk. apply (Hbefore (S k)). lia. }
    rewrite check_results_S.
    unfold check_result, after_check in *. cbn [check_world] in *.
    cbn [poll_loop].
    destruct (Z.ltb_spec (now w - startTime) timeoutMs) as [_|?]; [|lia].
    destruct (condition w) as [result w1]. cbn [fst snd] in *.
    unfold wait.
    split; [intros H1 H2; rewrite (IHt H1 H2) | intros H1; rewrite (IHf H1)];
      by destruct result as [[|]|e].
Qed.

End WaitHelperProperties.

(** ** WaitHelper: waitWithBackoff *)

Lemma total_delays delay k :
  foldr Z.add 0%Z (delays delay k) = (delay * (2 ^ Z.of_nat k - 1))%Z.
Proof.
  revert delay. induction k as [|k IH]; intros delay.
  - simpl. lia.
  - cbn [delays foldr]. rewrite IH, Nat2Z.inj_succ, Z.pow_succ_r by lia. lia.
Qed.

Lemma waitWithBackoff_run {World : Type} (sleep : Z → World → World)
    (action : Async World) (maxAttempts initialDelay : Z) (w : World) (n : nat) :
  (Z.of_nat n < maxAttempts)%Z →
  (∀ k, (k < n)%nat → attempt_result sleep action initialDelay k w = Returned false) →
  (attempt_result sleep action initialDelay n w = Returned false →
     (Z.of_nat n = maxAttempts - 1)%Z) →
  waitWithBackoff sleep action maxAttempts initialDelay w
  = Some (mkRun (attempt_result sleep action initialDelay n w)
            (after_attempt sleep action initialDelay n w)
            (rounds initialDelay n
             ++ [Invoked (attempt_result sleep action initialDelay n w)])).
Proof.
  intros Hn Hfalse Hlast. unfold waitWithBackoff.
  apply backoff_loop_run; [lia|lia|done|]. intros E. specialize (Hlast E). lia.
Qed.

Lemma first_attempt (f : nat → completion bool) (N : nat) :
  (0 < N)%nat →
  ∃ j, (j < N)%nat ∧ (∀ k, (k < j)%nat → f k = Returned false)
       ∧ (f j = Returned false → j = (N - 1)%nat).
Proof.
  induction N as [|N IH]; [lia|]. intros _.
  destruct N as [|N].
  - exists 0%nat. split; [lia|]. split; [intros; lia|done].
  - destruct IH as (j & Hj & Hbefore & Hlast); [lia|].
    destruct (f j) as [[|]|e] eqn:E.
    + exists j. rewrite E. split; [lia|]. split; [done|discriminate].
    + specialize (Hlast eq_refl). exists (S N).
      split; [lia|]. split; [|intros; lia].
      intros k Hk. destruct (decide (k = j)) as [->|]; [done|]. apply Hbefore. lia.
    + exists j. rewrite E. split; [lia|]. split; [done|discriminate].
Qed.

(** Every run of [waitWithBackoff]: no attempt at all, or the attempts up
    to the first that did not return false, or all [maxAttempts] of them. *)
Lemma waitWithBackoff_cases {World : Type} (sleep : Z → World → World)
    (action : Async World) (maxAttempts initialDelay : Z) (w : World) :
  ((maxAttempts ≤ 0)%Z
   ∧ waitWithBackoff sleep action maxAttempts initialDelay w
     = Some (mkRun (Returned false) w []))
  ∨ ∃ j : nat,
      (Z.of_nat j < maxAttempts)%Z
      ∧ (∀ k, (k < j)%nat → attempt_result sleep action initialDelay k w = Returned false)
      ∧ (attempt_result sleep action initialDelay j w = Returned false →
           (Z.of_nat j = maxAttempts - 1)%Z)
      ∧ waitWithBackoff sleep action maxAttempts initialDelay w
        = Some (mkRun (attempt_result sleep action initialDelay j w)
                  (after_attempt sleep action initialDelay j w)
                  (rounds initialDelay j
                   ++ [Invoked (attempt_result sleep action initialDelay j w)])).
Proof.
  destruct (Z.le_gt_cases maxAttempts 0) as [Hle|Hpos].
  - left. split; [done|]. unfold waitWithBackoff. cbn [backoff_loop].
    by destruct (Z.ltb_spec 0 maxAttempts); [lia|].
  - right.
    destruct (first_attempt (λ k, attempt_result sleep action initialDelay k w)
                (Z.to_nat maxAttempts)) as (j & Hj & Hbefore & Hlast); [lia|].
    exists j. split; [lia|]. split; [done|].
    assert (attempt_result sleep action initialDelay j w = Returned false →
            (Z.of_nat j = maxAttempts - 1)%Z) as Hlast'.
    { intros E. specialize (Hlast E). lia. }
    split; [done|]. apply waitWithBackoff_run; [lia|done|done].
Qed.

(** C5.  [waitWithBackoff] always comes back, and what it does is fixed by
    what the action answers in the worlds of the attempts.  If the action
    returns false on the attempts before number [n] and true on attempt
    [n], with [n] below [maxAttempts], the call returns true straight after
    that attempt: it has invoked the action [n + 1] times, in those worlds,
    and slept [initialDelay], twice that, ... after each of the first [n],
    and not after the last.  If the action returns false on all
    [maxAttempts] attempts, the call returns false after [maxAttempts]
    invocations, having slept between them and not after the last; with 3
    attempts and 1000 ms the sleeps are 1000 and 2000, 3000 ms in all.
    With no attempt allowed it returns false at once.  In the record of any
    run, an attempt that returned true is the last step and the call
    returns true, and a call that returns true ends on such an attempt. *)
Theorem waitWithBackoff_attempts {World : Type} (sleep : Z → World → World)
    (action : Async World) (maxAttempts initialDelay : Z) (w : World) :
  ∃ run, waitWithBackoff sleep action maxAttempts initialDelay w = Some run
    ∧ (∀ n : nat, (Z.of_nat n < maxAttempts)%Z →
         (∀ k, (k < n)%nat →
            attempt_result sleep action initialDelay k w = Returned false) →
         attempt_result sleep action initialDelay n w = Returned true →
         run = mkRun (Returned true) (after_attempt sleep action initialDelay n w)
                 (rounds initialDelay n ++ [Invoked (Returned true)]))
    ∧ ((0 < maxAttempts)%Z →
       (∀ k : nat, (Z.of_nat k < maxAttempts)%Z →
          attempt_result sleep action initialDelay k w = Returned false) →
         run = mkRun (Returned false)
                 (after_attempt sleep action initialDelay (Z.to_nat maxAttempts - 1) w)
                 (rounds initialDelay (Z.to_nat maxAttempts - 1)
                  ++ [Invoked (Returned false)])
         ∧ invocations (trace run)
           = replicate (Z.to_nat maxAttempts) (Returned false)
         ∧ waits (trace run) = delays initialDelay (Z.to_nat maxAttempts - 1)
         ∧ (maxAttempts = 3%Z → initialDelay = 1000%Z →
              waits (trace run) = [1000; 2000]%Z
              ∧ total_waited (trace run) = 3000%Z))
    ∧ ((maxAttempts ≤ 0)%Z → run = mkRun (Returned false) w [])
    ∧ (∀ pre post, trace run = pre ++ Invoked (Returned true) :: post →
         post = [] ∧ outcome run = Returned true
         ∧ ∃ k : nat, (Z.of_nat k < maxAttempts)%Z ∧ pre = rounds initialDelay k)
    ∧ (outcome run = Returned true →
         ∃ pre, trace run = pre ++ [Invoked (Returned true)])
    ∧ (Forall (λ r, r = Returned false) (invocations (trace run)) →
       (0 ≤ maxAttempts)%Z →
         outcome run = Returned false
         ∧ invocations (trace run)
           = replicate (Z.to_nat maxAttempts) (Returned false)
         ∧ waits (trace run) = delays initialDelay (Z.to_nat maxAttempts - 1)
         ∧ (∀ tr ms, trace run ≠ tr ++ [Waited ms])
         ∧ (maxAttempts = 3%Z → initialDelay = 1000%Z →
              waits (trace run) = [1000; 2000]%Z
              ∧ total_waited (trace run) = 3000%Z)).
Proof.
  destruct (waitWithBackoff_shape sleep action maxAttempts initialDelay w)
    as (run & Hrun & Hinv & Hshape).
  exists run. split; [done|]. split; [|split; [|split; [|split; [|split]]]].
  - intros n Hn Hfalse Htrue.
    rewrite (waitWithBackoff_run sleep action maxAttempts initialDelay w n)
      in Hrun; [|done|done|congruence].
    injection Hrun as <-. by rewrite Htrue.
  - intros Hpos Hfalse.
    assert (attempt_result sleep action initialDelay (Z.to_nat maxAttempts - 1) w
            = Returned false) as Hlast by (apply Hfalse; lia).
    rewrite (waitWithBackoff_run sleep action maxAttempts initialDelay w
               (Z.to_nat maxAttempts - 1)) in Hrun;
      [|lia|intros; apply Hfalse; lia|lia].
    injection Hrun as <-. rewrite Hlast. cbn [trace].
    rewrite invocations_rounds, waits_rounds.
    split; [done|]. split.
    { rewrite <- replicate_S_end. f_equal. lia. }
    split; [done|].
    intros -> ->. unfold total_waited. rewrite waits_rounds. done.
  - intros Hle. revert Hrun. unfold waitWithBackoff. cbn [backoff_loop].
    destruct (Z.ltb_spec 0 maxAttempts); [lia|]. by intros [= <-].
  - intros pre post E.
    destruct Hshape as [(_ & Htr & _)|(j & r & Hj & Htr & Hout & _)].
    + rewrite Htr in E. by destruct pre.
    + rewrite Htr in E.
      apply rounds_split_other in E as (-> & <- & ->); [|done].
      split; [done|]. split; [done|]. exists j. split; [lia|done].
  - intros Htrue.
    destruct Hshape as [(_ & _ & Hout)|(j & r & _ & Htr & Hout & _)].
    + congruence.
    + exists (rounds initialDelay j). congruence.
  - intros Hfalse Hpos.
    destruct Hshape as [(Hle & Htr & Hout)|(j & r & Hj & Htr & Hout & Hlast)].
    + assert (maxAttempts = 0%Z) as -> by lia. rewrite Htr.
      split; [done|]. split; [done|]. split; [done|]. split.
      * intros tr ms E. by destruct tr.
      * discriminate.
    + assert (r = Returned false) as ->.
      { rewrite Htr, invocations_rounds in Hfalse.
        apply Forall_app in Hfalse as [_ Hr].
        rewrite Forall_singleton in Hr. exact Hr. }
      specialize (Hlast eq_refl).
      assert (Z.to_nat maxAttempts = S j) as Hn by lia.
      rewrite Htr, invocations_rounds, waits_rounds, Hn.
      replace (S j - 1)%nat with j by lia.
      split; [done|]. split; [by rewrite replicate_S_end|]. split; [done|].
      split; [apply rounds_no_trailing_wait|].
      intros -> ->. assert (j = 2%nat) as -> by lia.
      unfold total_waited. rewrite waits_rounds. done.
Qed.

Lemma waitWithBackoff_attempts_witness :
  waitWithBackoff tick_clock (true_from 3000) 5 1000 0%Z
  = Some (mkRun (Returned true) 3000%Z
            [Invoked (Returned false); Waited 1000%Z;
             Invoked (Returned false); Waited 2000%Z; Invoked (Returned true)])
  ∧ ∃ run, waitWithBackoff tick_clock (always (Returned false)) 3 1000 0%Z = Some run
      ∧ outcome run = Returned false
      ∧ invocations (trace run) = replicate 3 (Returned false)
      ∧ total_waited (trace run) = 3000%Z.
Proof.
  split.
  - destruct (waitWithBackoff_attempts tick_clock (true_from 3000) 5 1000 0%Z)
      as (run & Hrun & Htrue & _).
    rewrite Hrun. f_equal. apply (Htrue 2%nat).
    + lia.
    + intros [|[|k]] Hk; [reflexivity | reflexivity | lia].
    + reflexivity.
  - destruct (waitWithBackoff_attempts tick_clock (always (Returned false)) 3 1000 0%Z)
      as (run & Hrun & _ & Hall & _).
    exists run. split; [exact Hrun|].
    destruct Hall as (-> & Hinv & _ & Hsum).
    + lia.
    + intros k _. reflexivity.
    + split; [reflexivity|]. split; [exact Hinv|].
      apply Hsum; reflexivity.
Defined.

(** C6.  [waitWithBackoff] does not absorb a failure of its action.  If
    the action returns false on the attempts before number [n] and raises
    on attempt [n], with [n] below [maxAttempts], the call raises the same
    failure straight after that attempt: no further invocation, no sleep
    after it; so an action that raises when first invoked makes the call
    raise at once.  If the action returns false on the attempts up to
    number [n] and that is not the last one allowed, the call sleeps and
    invokes the action again, in the world of attempt [n + 1].  In the
    record of any run, an attempt that raised is the last step and the call
    raises the same failure; a call that raises does so with a failure of
    its action; an attempt that returned false is followed by a sleep and a
    further attempt unless it was attempt number [maxAttempts]. *)
Theorem waitWithBackoff_propagates {World : Type} (sleep : Z → World → World)
    (action : Async World) (maxAttempts initialDelay : Z) (w : World) :
  ∃ run, waitWithBackoff sleep action maxAttempts initialDelay w = Some run
    ∧ (∀ (n : nat) e, (Z.of_nat n < maxAttempts)%Z →
         (∀ k, (k < n)%nat →
            attempt_result sleep action initialDelay k w = Returned false) →
         attempt_result sleep action initialDelay n w = Threw e →
         run = mkRun (Threw e) (after_attempt sleep action initialDelay n w)
                 (rounds initialDelay n ++ [Invoked (Threw e)]))
    ∧ (∀ n : nat, (Z.of_nat n + 1 < maxAttempts)%Z →
         (∀ k, (k ≤ n)%nat →
            attempt_result sleep action initialDelay k w = Returned false) →
         ∃ post,
           trace run
           = rounds initialDelay (S n)
             ++ Invoked (attempt_result sleep action initialDelay (S n) w) :: post)
    ∧ (∀ pre e post, trace run = pre ++ Invoked (Threw e) :: post →
         post = [] ∧ outcome run = Threw e)
    ∧ (∀ e, outcome run = Threw e →
         (∃ pre, trace run = pre ++ [Invoked (Threw e)])
         ∧ ∃ w', (action w').1 = Threw e)
    ∧ (∀ e, (action w).1 = Threw e → (0 < maxAttempts)%Z →
         outcome run = Threw e ∧ trace run = [Invoked (Threw e)])
    ∧ (∀ pre post, trace run = pre ++ Invoked (Returned false) :: post →
         (post = [] ∧ outcome run = Returned false
          ∧ Z.of_nat (length (invocations (trace run))) = maxAttempts)
         ∨ ∃ ms r post', post = Waited ms :: Invoked r :: post').
Proof.
  destruct (waitWithBackoff_shape sleep action maxAttempts initialDelay w)
    as (run & Hrun & Hinv & Hshape).
  exists run. split; [done|]. split; [|split; [|split; [|split; [|split]]]].
  - intros n e Hn Hfalse Hraise.
    rewrite (waitWithBackoff_run sleep action maxAttempts initialDelay w n)
      in Hrun; [|done|done|congruence].
    injection Hrun as <-. by rewrite Hraise.
  - intros n Hn Hfalse.
    destruct (backoff_loop_prefix sleep action maxAttempts (S n)
                (S (Z.to_nat maxAttempts)) 0 initialDelay w)
      as (run' & post & Hrun' & Htr); [lia|lia|intros; apply Hfalse; lia|].
    unfold waitWithBackoff in Hrun. rewrite Hrun in Hrun'.
    injection Hrun' as <-. by exists post.
  - intros pre e post E.
    destruct Hshape as [(_ & Htr & _)|(j & r & Hj & Htr & Hout & _)].
    + rewrite Htr in E. by destruct pre.
    + rewrite Htr in E.
      apply rounds_split_other in E as (-> & <- & ->); done.
  - intros e He.
    destruct Hshape as [(_ & _ & Hout)|(j & r & _ & Htr & Hout & _)].
    + congruence.
    + assert (r = Threw e) as -> by congruence. split.
      * by exists (rounds initialDelay j).
      * rewrite Htr, invocations_rounds in Hinv.
        apply Forall_app in Hinv as [_ Hr].
        rewrite Forall_singleton in Hr. exact Hr.
  - intros e He Hpos. revert Hrun. unfold waitWithBackoff. simpl.
    destruct (Z.ltb_spec 0 maxAttempts) as [_|?]; [|lia].
    destruct (action w) as [result w1]. simpl in He. subst result.
    by intros [= <-].
  - intros pre post E.
    destruct Hshape as [(_ & Htr & _)|(j & r & Hj & Htr & Hout & Hlast)].
    + rewrite Htr in E. by destruct pre.
    + rewrite Htr in E.
      apply rounds_split_false in E as [(-> & -> & ->)|?]; [left|by right].
      split; [done|]. split; [done|].
      rewrite Htr, invocations_rounds, length_app, length_replicate. simpl.
      specialize (Hlast eq_refl). lia.
Qed.

Lemma waitWithBackoff_propagates_witness :
  waitWithBackoff tick_clock (raises_from 1000) 5 1000 0%Z
  = Some (mkRun (Threw (OtherError "gone")) 1000%Z
            [Invoked (Returned false); Waited 1000%Z;
             Invoked (Threw (OtherError "gone"))])
  ∧ ∃ run,
      waitWithBackoff tick_clock (always (Threw (OtherError "boom"))) 5 1000 0%Z
      = Some run
      ∧ outcome run = Threw (OtherError "boom")
      ∧ trace run = [Invoked (Threw (OtherError "boom"))].
Proof.
  split.
  - destruct (waitWithBackoff_propagates tick_clock (raises_from 1000) 5 1000 0%Z)
      as (run & Hrun & Hraise & _).
    rewrite Hrun. f_equal. apply (Hraise 1%nat).
    + lia.
    + intros [|k] Hk; [reflexivity | lia].
    + reflexivity.
  - destruct (waitWithBackoff_propagates tick_clock
                (always (Threw (OtherError "boom"))) 5 1000 0%Z)
      as (run & Hrun & _ & _ & _ & _ & Hfirst & _).
    exists run. split; [exact Hrun|].
    apply Hfirst; [reflexivity | lia].
Defined.

(** ** WaitHelper: pollUntil *)

(** C4.  [pollUntil] never raises, whatever the condition does, and it
    keeps polling after a check that raised.  If the checks before number
    [n] start before the deadline and none of them returns true, whether
    it returns false or raises, then: if check [n] starts before the
    deadline and returns true, the call returns true, having invoked the
    condition [n + 1] times, in the worlds of those checks, with a sleep of
    [intervalMs] after each of the first [n]; and if the deadline has
    passed when check [n] would start, the call returns false after those
    [n] checks.  Where a timer that fires moves the clock forward and the
    condition does not move it back, [pollUntil] comes back, with the same
    run for every larger bound on the iterations; a check that raised is
    followed by a sleep of [intervalMs]; a run in which no check returned
    true returns false, with [timeoutMs] elapsed; and so it is when the
    condition raises on every invocation. *)
Theorem pollUntil_absorbs_failures {World : Type} (now : World → Z)
    (sleep : Z → World → World) (condition : Async World)
    (timeoutMs intervalMs : Z) (w : World) :
  (∀ fuel run, pollUntil now sleep fuel condition timeoutMs intervalMs w = Some run →
     ∃ b, outcome run = Returned b)
  ∧ (∀ n fuel : nat, (n < fuel)%nat →
       (∀ k, (k < n)%nat →
          (now (check_world sleep condition intervalMs k w) - now w < timeoutMs)%Z
          ∧ check_result sleep condition intervalMs k w ≠ Returned true) →
       ((now (check_world sleep condition intervalMs n w) - now w < timeoutMs)%Z →
        check_result sleep condition intervalMs n w = Returned true →
          pollUntil now sleep fuel condition timeoutMs intervalMs w
          = Some (mkRun (Returned true) (after_check sleep condition intervalMs n w)
                    (polls intervalMs (check_results sleep condition intervalMs n w)
                     ++ [Invoked (Returned true)])))
       ∧ ((timeoutMs ≤ now (check_world sleep condition intervalMs n w) - now w)%Z →
          pollUntil now sleep fuel condition timeoutMs intervalMs w
          = Some (mkRun (Returned false) (check_world sleep condition intervalMs n w)
                    (polls intervalMs
                       (check_results sleep condition intervalMs n w)))))
  ∧ ((∀ ms w', now w' < now (sleep ms w'))%Z →
     (∀ w', now w' ≤ now (condition w').2)%Z →
     ∃ fuel run,
      (∀ fuel', (fuel ≤ fuel')%nat →
         pollUntil now sleep fuel' condition timeoutMs intervalMs w = Some run)
      ∧ (∀ pre e post, trace run = pre ++ Invoked (Threw e) :: post →
           ∃ post', post = Waited intervalMs :: post')
      ∧ (Invoked (Returned true) ∉ trace run →
           outcome run = Returned false
           ∧ (timeoutMs ≤ now (final run) - now w)%Z)
      ∧ ((∀ w', ∃ e, (condition w').1 = Threw e) →
           outcome run = Returned false
           ∧ (timeoutMs ≤ now (final run) - now w)%Z
           ∧ Forall (λ r, ∃ e, r = Threw e) (invocations (trace run)))).
Proof.
  split; [|split].
  - intros fuel run E.
    apply poll_loop_shape in E as (rs & _ & [(-> & _)|(-> & _)]); eauto.
  - intros n fuel Hfuel Hbefore. unfold pollUntil.
    by apply poll_loop_run.
  - intros Hsleep Hcond.
    destruct (poll_loop_terminates now sleep condition timeoutMs intervalMs (now w)
                Hsleep Hcond (S (Z.to_nat (timeoutMs - (now w - now w)))) w)
      as (run & Hrun); [lia|].
    exists (S (Z.to_nat (timeoutMs - (now w - now w)))), run.
    split.
    { intros fuel' Hle. unfold pollUntil.
      by apply (poll_loop_more_fuel now sleep _ _ _ _ _ fuel' _ _ Hle Hrun). }
    apply poll_loop_shape in Hrun as (rs & Hrs & Hcase).
    split; [|split].
    + intros pre e post E.
      destruct Hcase as [(_ & Htr & _)|(_ & Htr & _)]; rewrite Htr in E.
      * by apply polls_app_split in E.
      * by apply polls_split in E.
    + intros Hno.
      destruct Hcase as [(_ & Htr & _)|(Hout & _ & Hel)]; [|done].
      exfalso. apply Hno.
      rewrite Htr, elem_of_app, list_elem_of_singleton. by right.
    + intros Hraise.
      destruct Hcase as [(_ & _ & w' & Hw')|(Hout & Htr & Hel)].
      * destruct (Hraise w') as (e & He). congruence.
      * split; [done|]. split; [done|].
        rewrite Htr, invocations_polls.
        eapply Forall_impl; [exact Hrs|].
        intros r [_ (w' & <-)]. apply Hraise.
Qed.

Lemma pollUntil_absorbs_failures_witness :
  pollUntil id tick_clock 5 (raises_until 800) 1000 400 0%Z
  = Some (mkRun (Returned true) 800%Z
            [Invoked (Threw (OtherError "not ready")); Waited 400%Z;
             Invoked (Threw (OtherError "not ready")); Waited 400%Z;
             Invoked (Returned true)])
  ∧ ∃ fuel run,
      pollUntil id tick_clock fuel (always (Threw (OtherError "boom"))) 1000 400 0%Z
      = Some run
      ∧ outcome run = Returned false
      ∧ (1000 ≤ final run - 0)%Z.
Proof.
  split.
  - destruct (pollUntil_absorbs_failures id tick_clock (raises_until 800)
                1000 400 0%Z) as (_ & Hrun & _).
    destruct (Hrun 2%nat 5%nat) as [Htrue _].
    + lia.
    + intros [|[|k]] Hk; [split; [reflexivity|discriminate]..|lia].
    + apply Htrue; reflexivity.
  - destruct (pollUntil_absorbs_failures id tick_clock
                (always (Threw (OtherError "boom"))) 1000 400 0%Z)
      as (_ & _ & Hterm).
    destruct Hterm as (fuel & run & Hrun & _ & _ & Hraise).
    + intros ms w'. unfold tick_clock, id. lia.
    + intros w'. simpl. unfold id. lia.
    + exists fuel, run. split; [apply Hrun; lia|].
      destruct Hraise as (Hout & Hel & _).
      * intros w'. exists (OtherError "boom"). reflexivity.
      * split; [exact Hout | exact Hel].
Defined.

(** ** TestDataService *)

(** C7 (as amended).  [getStoredTasks] returns the empty collection when
    the key [tasks] is absent and when it holds the empty text; for every
    other text it comes back as [JSON.parse] does on that text, with the
    value decoded, whatever it is, or with the failure raised. *)
Theorem getStoredTasks_cases {JSValue : Type} (emptyArray : JSValue)
    (JSON_parse : string → completion JSValue) (p : Storages) :
  (localStorage p !! "tasks" = None →
     getStoredTasks emptyArray JSON_parse p = Returned emptyArray)
  ∧ (localStorage p !! "tasks" = Some "" →
     getStoredTasks emptyArray JSON_parse p = Returned emptyArray)
  ∧ (∀ text, localStorage p !! "tasks" = Some text → text ≠ "" →
     getStoredTasks emptyArray JSON_parse p = JSON_parse text)
  ∧ (∀ text e, localStorage p !! "tasks" = Some text → text ≠ "" →
     JSON_parse text = Threw e →
     getStoredTasks emptyArray JSON_parse p = Threw e).
Proof.
  unfold getStoredTasks. repeat split.
  - by intros ->.
  - by intros ->.
  - intros text -> Hne. simpl. by rewrite bool_decide_false.
  - intros text e -> Hne <-. simpl. by rewrite bool_decide_false.
Qed.

Lemma getStoredTasks_cases_witness :
  getStoredTasks [] parse_empty_array stored_garbage = Threw SyntaxError.
Proof.
  destruct (getStoredTasks_cases [] parse_empty_array stored_garbage)
    as (_ & _ & _ & Hraise).
  apply (Hraise "not json" SyntaxError).
  - reflexivity.
  - discriminate.
  - reflexivity.
Defined.

(** C7, as the specification states it, fails on a store whose [tasks] key
    holds the empty text: the key is there, the text is not JSON, and
    [getStoredTasks] returns the empty collection, whichever [JSON.parse]
    it is given. *)
Lemma getStoredTasks_empty_text_counterexample :
  localStorage stored_empty_text !! "tasks" = Some ""
  ∧ parse_empty_array "" = Threw SyntaxError
  ∧ getStoredTasks [] parse_empty_array stored_empty_text = Returned []
  ∧ ¬ (∀ (parse : string → completion (list Task)) p text e,
         localStorage p !! "tasks" = Some text →
         parse text = Threw e →
         getStoredTasks [] parse p = Threw e).
Proof.
  repeat split.
  intros H.
  specialize (H parse_empty_array stored_empty_text "" SyntaxError eq_refl eq_refl).
  discriminate.
Qed.

(** C8.  From every prior state of the page, whatever the storages hold
    and whatever tasks the application shows: the script of [resetState]
    empties both storages and leaves the running application alone; then
    the page is reloaded, on empty storages, whatever application it is.
    With the application as the specification has it, after [resetState]
    both storages are empty, the key [tasks] is absent, [getStoredTasks]
    returns the empty collection, and the application holds no task. *)
Theorem resetState_then_getStoredTasks {JSValue : Type} (emptyArray : JSValue)
    (JSON_parse : string → completion JSValue) (restore : string → list Task)
    (pg : Page) :
  evaluate clearStorages pg = mkPage (mkStorages ∅ ∅) (held pg)
  ∧ (∀ reload : Page → Page,
       resetState reload pg = reload (mkPage (mkStorages ∅ ∅) (held pg)))
  ∧ storages (resetState (reload_application restore) pg) = mkStorages ∅ ∅
  ∧ localStorage (storages (resetState (reload_application restore) pg)) !! "tasks"
    = None
  ∧ getStoredTasks emptyArray JSON_parse
      (storages (resetState (reload_application restore) pg))
    = Returned emptyArray
  ∧ held (resetState (reload_application restore) pg) = [].
Proof. repeat split. Qed.

Lemma resetState_then_getStoredTasks_witness :
  held page_in_use = [default_task]
  ∧ getStoredTasks [] parse_empty_array (storages page_in_use) = Threw SyntaxError
  ∧ getStoredTasks [] parse_empty_array
      (storages (resetState (reload_application (λ _, [default_task])) page_in_use))
    = Returned []
  ∧ held (resetState (reload_application (λ _, [default_task])) page_in_use) = [].
Proof.
  destruct (resetState_then_getStoredTasks [] parse_empty_array
              (λ _, [default_task]) page_in_use)
    as (_ & _ & _ & _ & Hread & Hheld).
  split; [reflexivity|]. split; [reflexivity|]. split; [exact Hread | exact Hheld].
Defined.

(** ** TaskManagerPage: locating a card by its title *)

(** C3, evaluated where it fails.  With two cards under the title
    [Task 4], [deleteTask], [toggleTaskCompletion] and [editTask] raise a
    strict-mode violation, whatever the application does on a click, and
    the page stays as it was: no card is acted on, both are still there. *)
Theorem deleteTask_duplicate_title_raises (on_click : Element → Dom → Dom)
    (offers : nat → string → bool) (newTask : Task) :
  getTaskByTitle "Task 4" two_cards_one_title = [0; 1]%nat
  ∧ deleteTask on_click "Task 4" two_cards_one_title
    = (Threw StrictModeViolation, two_cards_one_title)
  ∧ toggleTaskCompletion on_click "Task 4" two_cards_one_title
    = (Threw StrictModeViolation, two_cards_one_title)
  ∧ editTask on_click offers "Task 4" newTask two_cards_one_title
    = (Threw StrictModeViolation, two_cards_one_title).
Proof. repeat split. Qed.

Lemma starts_with_refl fold s : starts_with fold s s = true.
Proof.
  induction s as [|c s IH]; simpl; [done|].
  by rewrite bool_decide_true, IH.
Qed.

Lemma contains_refl fold s : contains fold s s = true.
Proof. destruct s; simpl; [done|]. by rewrite bool_decide_true, starts_with_refl. Qed.

Lemma elem_of_indices_where {A} (keep : A → bool) (l : list A) (i : nat) :
  i ∈ indices_where keep l ↔ ∃ x, l !! i = Some x ∧ keep x = true.
Proof.
  unfold indices_where. rewrite list_elem_of_omap. split.
  - intros ([i' x] & Hin & Hkeep).
    apply elem_of_lookup_imap in Hin as (n & y & [= -> ->] & Hl).
    destruct (keep y) eqn:Hy; [|discriminate].
    injection Hkeep as <-. eauto.
  - intros (x & Hl & Hkeep). exists (i, x). split.
    + by apply (elem_of_lookup_imap_2 pair).
    + by rewrite Hkeep.
Qed.

Lemma elem_of_buttons_within parent keep d (i j : nat) :
  (i, j) ∈ buttons_within parent keep d
  ↔ i ∈ parent
    ∧ ∃ c b, cards d !! i = Some c ∧ buttons c !! j = Some b ∧ keep b = true.
Proof.
  unfold buttons_within. rewrite list_elem_of_bind. split.
  - intros (i' & Hin & Hp).
    destruct (cards d !! i') as [c|] eqn:Hc; [|by apply elem_of_nil in Hin].
    apply list_elem_of_fmap in Hin as (j' & [= -> ->] & Hj).
    apply elem_of_indices_where in Hj as (b & Hb & Hk).
    split; [done|]. by exists c, b.
  - intros (Hp & c & b & Hc & Hb & Hk). exists i. split; [|done].
    rewrite Hc. apply list_elem_of_fmap. exists j. split; [done|].
    apply elem_of_indices_where. eauto.
Qed.

Lemma strict_two {A} (l : list A) (x y : A) :
  x ∈ l → y ∈ l → x ≠ y → strict l = Threw StrictModeViolation.
Proof.
  destruct l as [|a [|b l]]; simpl; [|intros Hx Hy Hne|done].
  - intros Hx. by apply elem_of_nil in Hx.
  - apply list_elem_of_singleton in Hx, Hy. congruence.
Qed.

(** Whatever the title and the page: two cards whose headings hold the
    title, each with a Delete button, make [deleteTask] raise and leave the
    page as it is. *)
Lemma deleteTask_shared_title_raises (on_click : Element → Dom → Dom)
    (taskTitle : string) (d : Dom) (i j : nat) (c1 c2 : Card) :
  i ≠ j →
  cards d !! i = Some c1 → cards d !! j = Some c2 →
  has_text (h3 c1) taskTitle = true → has_text (h3 c2) taskTitle = true →
  "Delete" ∈ buttons c1 → "Delete" ∈ buttons c2 →
  deleteTask on_click taskTitle d = (Threw StrictModeViolation, d).
Proof.
  intros Hij Hc1 Hc2 Ht1 Ht2 Hb1 Hb2.
  apply list_elem_of_lookup in Hb1 as (k1 & Hk1).
  apply list_elem_of_lookup in Hb2 as (k2 & Hk2).
  unfold deleteTask, andThen, click.
  rewrite (strict_two _ (i, k1) (j, k2)); [done| | |congruence].
  - apply elem_of_buttons_within. split.
    + apply elem_of_indices_where. eauto.
    + exists c1, "Delete". split; [done|]. split; [done|]. apply contains_refl.
  - apply elem_of_buttons_within. split.
    + apply elem_of_indices_where. eauto.
    + exists c2, "Delete". split; [done|]. split; [done|]. apply contains_refl.
Qed.

(** With one card under the title, carrying one Delete button, the click
    goes to that button. *)
Lemma deleteTask_single_match (on_click : Element → Dom → Dom)
    (taskTitle : string) (d : Dom) (e : Element) :
  buttons_within (getTaskByTitle taskTitle d) (λ b, has_text b "Delete") d = [e] →
  deleteTask on_click taskTitle d = (Returned tt, on_click e d).
Proof.
  intros E. unfold deleteTask, andThen, click. by rewrite E.
Qed.

(** ** TaskManagerPage: filling the edit form *)

Lemma untouched_idle keep : untouched keep idle.
Proof. intros d. done. Qed.

Lemma untouched_andThen keep (m k : Driver unit) :
  untouched keep m → untouched keep k → untouched keep (m ;;; k).
Proof.
  intros Hm Hk d. unfold andThen.
  destruct (Hm d) as [Hc Hv].
  destruct (m d) as [[[]|e] d1]; simpl in *; [|done].
  destruct (Hk d1) as [Hc' Hv']. split.
  - congruence.
  - intros c n Hkeep. rewrite Hv', Hv; done.
Qed.

Lemma untouched_when keep (c : bool) (m : Driver unit) :
  (c = true → untouched keep m) → untouched keep (when c m).
Proof. destruct c; simpl; [auto | intros _; apply untouched_idle]. Qed.

Lemma controls_with_controls k k' l d :
  controls k' (with_controls k l d) = if decide (k' = k) then l else controls k' d.
Proof. by destruct k, k'. Qed.

Lemma untouched_set_value keep k n v :
  keep k n = false → untouched keep (set_value k n v).
Proof.
  intros Hkeep d. unfold set_value.
  destruct (nth_of n (controls k d)); simpl; [|done].
  split; [by destruct k|].
  intros k' m Hm. rewrite controls_with_controls.
  case_decide as Hk; [|done]. subst k'.
  apply list_lookup_insert_ne. intros ->. congruence.
Qed.

Lemma untouched_selectOption keep (offers : nat → string → bool) n v :
  keep Select n = false → untouched keep (selectOption offers n v).
Proof.
  intros Hkeep d. unfold selectOption.
  destruct (offers n v); [by apply untouched_set_value | done].
Qed.

Lemma fillEditForm_untouched (offers : nat → string → bool) (task : Task) :
  untouched (λ k n, negb (writes task k n)) (fillEditForm offers task).
Proof.
  unfold fillEditForm, clear, fill.
  repeat apply untouched_andThen; try apply untouched_idle;
    apply untouched_when; intros Hc;
    repeat apply untouched_andThen; try apply untouched_idle;
    first [apply untouched_set_value | apply untouched_selectOption];
    simpl; by rewrite Hc.
Qed.

Lemma editTask_steps (on_click : Element → Dom → Dom) (offers : nat → string → bool)
    oldTitle newTask d d3 :
  editTask on_click offers oldTitle newTask d = (Returned tt, d3) →
  ∃ d1 d2,
    clickEditTask on_click oldTitle d = (Returned tt, d1)
    ∧ fillEditForm offers newTask d1 = (Returned tt, d2)
    ∧ saveEditedTask on_click d2 = (Returned tt, d3).
Proof.
  unfold editTask, andThen at 1.
  destruct (clickEditTask on_click oldTitle d) as [[[]|e] d1] eqn:E1; [|discriminate].
  unfold andThen at 1.
  destruct (fillEditForm offers newTask d1) as [[[]|e] d2] eqn:E2; [|discriminate].
  intros E3. exists d1, d2. done.
Qed.

(** What [fillEditForm] leaves alone, whether it comes back or fails on
    the way: the cards, and the control of each field the task does not
    hold. *)
Lemma fillEditForm_frame (offers : nat → string → bool) (newTask : Task) (d1 : Dom) :
  let d2 := (fillEditForm offers newTask d1).2 in
  cards d2 = cards d1
  ∧ (read (title newTask) = None → textInputs d2 = textInputs d1)
  ∧ (read (description newTask) = None → textareas d2 = textareas d1)
  ∧ (read (importance newTask) = None → selects d2 !! 0%nat = selects d1 !! 0%nat)
  ∧ (read (label newTask) = None → selects d2 !! 1%nat = selects d1 !! 1%nat)
  ∧ (read (importance newTask) = None → read (label newTask) = None →
       selects d2 = selects d1).
Proof.
  intros d2. subst d2.
  destruct (fillEditForm_untouched offers newTask d1) as [Hcards Hkeep].
  split; [done|]. repeat split.
  - intros Ht. apply list_eq. intros n. apply (Hkeep TextInput n).
    destruct n; simpl; [|done]. by rewrite Ht.
  - intros Hd. apply list_eq. intros n. apply (Hkeep Textarea n).
    destruct n; simpl; [|done]. by rewrite Hd.
  - intros Hi. apply (Hkeep Select 0%nat). simpl. by rewrite Hi.
  - intros Hl. apply (Hkeep Select 1%nat). simpl. by rewrite Hl.
  - intros Hi Hl. apply list_eq. intros n. apply (Hkeep Select n).
    destruct n as [|[|n]]; simpl; [by rewrite Hi | by rewrite Hl | done].
Qed.

(** C9 (as amended).  Whatever [fillEditForm] does on a page, it leaves
    the cards as they are and, for each of title, description, importance
    and label that the task does not hold, the control of that field as it
    is.  A call of [editTask] that comes back has clicked Edit, filled the
    form and clicked Save, and between the two clicks the controls of the
    fields absent from [newTask] kept what the application put in them
    when it opened the form.  So for a task whose values the form showed
    when it opened and whose card holds, after Save, the values the form
    showed then, the values of the fields absent from [newTask] are the
    same after the edit as before. *)
Theorem editTask_writes_present_fields (on_click : Element → Dom → Dom)
    (offers : nat → string → bool) (oldTitle : string) (newTask : Task) (d : Dom) :
  (∀ d1, let d2 := (fillEditForm offers newTask d1).2 in
     cards d2 = cards d1
     ∧ (read (title newTask) = None → textInputs d2 = textInputs d1)
     ∧ (read (description newTask) = None → textareas d2 = textareas d1)
     ∧ (read (importance newTask) = None → selects d2 !! 0%nat = selects d1 !! 0%nat)
     ∧ (read (label newTask) = None → selects d2 !! 1%nat = selects d1 !! 1%nat)
     ∧ (read (importance newTask) = None → read (label newTask) = None →
          selects d2 = selects d1))
  ∧ (∀ d3, editTask on_click offers oldTitle newTask d = (Returned tt, d3) →
       ∃ d1 d2,
         clickEditTask on_click oldTitle d = (Returned tt, d1)
         ∧ fillEditForm offers newTask d1 = (Returned tt, d2)
         ∧ saveEditedTask on_click d2 = (Returned tt, d3)
         ∧ (read (title newTask) = None → textInputs d2 = textInputs d1)
         ∧ (read (description newTask) = None → textareas d2 = textareas d1)
         ∧ (read (importance newTask) = None → selects d2 !! 0%nat = selects d1 !! 0%nat)
         ∧ (read (label newTask) = None → selects d2 !! 1%nat = selects d1 !! 1%nat)
         ∧ (∀ (i : nat) (before after : Card),
              cards d !! i = Some before → cards d3 !! i = Some after →
              form_shows before d1 → form_shows after d2 →
              (read (title newTask) = None → h3 after = h3 before)
              ∧ (read (description newTask) = None →
                   p_description after = p_description before)
              ∧ (read (importance newTask) = None →
                   p_importance after = p_importance before)
              ∧ (read (label newTask) = None → p_label after = p_label before))).
Proof.
  split; [apply fillEditForm_frame|].
  intros d3 E. apply editTask_steps in E as (d1 & d2 & E1 & E2 & E3).
  exists d1, d2. split; [done|]. split; [done|]. split; [done|].
  destruct (fillEditForm_frame offers newTask d1) as (_ & Ht & Hd & Hi & Hl & _).
  rewrite E2 in *. cbn [snd] in *.
  split; [done|]. split; [done|]. split; [done|]. split; [done|].
  intros i before after _ _ (Bt & Bd & Bi & Bl) (At & Ad & Ai & Al).
  repeat split; intros Habsent.
  - rewrite (Ht Habsent) in At. congruence.
  - rewrite (Hd Habsent) in Ad. congruence.
  - rewrite (Hi Habsent) in Ai. congruence.
  - rewrite (Hl Habsent) in Al. congruence.
Qed.

Lemma editTask_writes_present_fields_witness :
  ∃ d1 d2 after,
    clickEditTask inline_edit_app "Old title" one_card = (Returned tt, d1)
    ∧ fillEditForm offers_enumerated new_title_only d1 = (Returned tt, d2)
    ∧ saveEditedTask inline_edit_app d2 = (Returned tt, mkDom [after] [] [] [])
    ∧ h3 after = "New title"
    ∧ p_description after = p_description detailed_card
    ∧ p_importance after = p_importance detailed_card
    ∧ p_label after = p_label detailed_card.
Proof.
  destruct (editTask_writes_present_fields inline_edit_app offers_enumerated
              "Old title" new_title_only one_card) as [_ Hedit].
  destruct (Hedit (mkDom [mkCard "New title" "about" "High" "Social"
                            ["Complete"; "Edit"; "Delete"]] [] [] []))
    as (d1 & d2 & E1 & E2 & E3 & _ & _ & _ & _ & Hvalues).
  - reflexivity.
  - exists d1, d2, (mkCard "New title" "about" "High" "Social"
                      ["Complete"; "Edit"; "Delete"]).
    split; [exact E1|]. split; [exact E2|]. split; [exact E3|].
    split; [reflexivity|].
    destruct (Hvalues 0%nat detailed_card
                (mkCard "New title" "about" "High" "Social"
                   ["Complete"; "Edit"; "Delete"]))
      as (_ & Hd & Hi & Hl).
    + reflexivity.
    + reflexivity.
    + vm_compute in E1. injection E1 as <-. repeat split.
    + vm_compute in E1. injection E1 as <-.
      vm_compute in E2. injection E2 as <-. repeat split.
    + split; [apply Hd; reflexivity|].
      split; [apply Hi; reflexivity | apply Hl; reflexivity].
Defined.

(** C9, as the specification states it, fails on the application of the
    repository's bug report, whose edit form does not open on the values of
    the task: [editTask] with a new title alone leaves the controls of the
    description, the importance and the label as that form showed them, and
    Save stores them, so that the task loses its description and comes out
    with the importance Low and the label Hobby. *)
Lemma editTask_resets_absent_fields_counterexample :
  read (description new_title_only) = None
  ∧ read (importance new_title_only) = None
  ∧ read (label new_title_only) = None
  ∧ cards one_card
    = [mkCard "Old title" "about" "High" "Social" ["Complete"; "Edit"; "Delete"]]
  ∧ editTask resetting_edit_app offers_enumerated "Old title" new_title_only one_card
    = (Returned tt,
       mkDom [mkCard "New title" "" "Low" "Hobby" ["Complete"; "Edit"; "Delete"]]
         [] [] [])
  ∧ ¬ (∀ (on_click : Element → Dom → Dom) (offers : nat → string → bool)
         (oldTitle : string) (newTask : Task) (d d3 : Dom) (i : nat)
         (before after : Card),
         editTask on_click offers oldTitle newTask d = (Returned tt, d3) →
         cards d !! i = Some before → cards d3 !! i = Some after →
         read (importance newTask) = None →
         p_importance after = p_importance before).
Proof.
  repeat split.
  intros H.
  specialize (H resetting_edit_app offers_enumerated "Old title" new_title_only
                one_card _ 0%nat _ _ eq_refl eq_refl eq_refl eq_refl).
  discriminate.
Qed.

(** ** TaskService: the factories against the oracle *)

Lemma validateTask_accepts (t : Task) :
  valid (validateTask t) = true ↔ code_valid t.
Proof.
  rewrite validateTask_valid_errors, validateTask_errors_nil.
  unfold code_valid.
  rewrite <- title_ok, <- importance_ok, <- label_ok. tauto.
Qed.

Lemma validateTask_passes (t : Task) :
  valid (validateTask t) = true →
  validateTask t = {| valid := true; errors := [] |}.
Proof.
  intros Hv. pose proof (proj1 (validateTask_valid_errors t) Hv) as He.
  destruct (validateTask t) as [v e]. simpl in *. by subst.
Qed.

Lemma code_valid_spread (d o : Task) (r : Task) :
  code_valid d →
  title r = spread (title d) (title o) →
  importance r = spread (importance d) (importance o) →
  label r = spread (label d) (label o) →
  code_valid r ↔ override_ok o.
Proof.
  intros (Ht & Hi & Hl) Et Ei El.
  unfold code_valid, override_ok. rewrite Et, Ei, El. clear Et Ei El.
  assert ((∃ c rest, read (spread (title d) (title o)) = Some (String c rest)
                     ∧ is_A_Z c = true)
          ↔ (title o = Missing
             ∨ ∃ c rest, title o = Value (String c rest) ∧ is_A_Z c = true)) as ->.
  { destruct (title o) as [| |t]; simpl.
    - split; [by left | done].
    - split; [intros (?&?&?&?); done | intros [?|(?&?&?&?)]; done].
    - split; [intros (c&rest&[= ->]&?); right; eauto
             | intros [?|(c&rest&[= ->]&?)]; [done | eauto]]. }
  assert ((∃ i, read (spread (importance d) (importance o)) = Some i
                ∧ i ∈ ["High"; "Medium"; "Low"])
          ↔ (importance o = Missing
             ∨ ∃ i, importance o = Value i ∧ i ∈ ["High"; "Medium"; "Low"])) as ->.
  { destruct (importance o) as [| |i]; simpl.
    - split; [by left | done].
    - split; [intros (?&?&?); done | intros [?|(?&?&?)]; done].
    - split; [intros (i'&[= ->]&?); right; eauto
             | intros [?|(i'&[= ->]&?)]; [done | eauto]]. }
  assert ((read (spread (label d) (label o)) = None
           ∨ read (spread (label d) (label o)) = Some ""
           ∨ ∃ l, read (spread (label d) (label o)) = Some l
                  ∧ l ∈ ["Work"; "Social"; "Home"; "Hobby"])
          ↔ (label o = Missing ∨ label o = Undefined ∨ label o = Value ""
             ∨ ∃ l, label o = Value l ∧ l ∈ ["Work"; "Social"; "Home"; "Hobby"])) as ->.
  { destruct (label o) as [| |l]; simpl.
    - split; [by left | done].
    - split; [intros _; right; by left | by left].
    - split.
      + intros [?|[[= ->]|(l'&[= ->]&?)]]; [done | right; right; by left |].
        right; right; right. eauto.
      + intros [?|[?|[[= ->]|(l'&[= ->]&?)]]]; [done | done | right; by left |].
        right; right. eauto. }
  done.
Qed.

(** X1.  For every overrides record, [createValidTask] and
    [createMinimalTask] give a task that passes [validateTask] exactly when
    each of title, importance and label is either missing from the
    overrides or a value the oracle accepts; description and completed
    never matter. *)
Theorem factories_valid_iff_overrides_ok (o : Task) :
  (valid (validateTask (createValidTask (Some o))) = true ↔ override_ok o)
  ∧ (valid (validateTask (createMinimalTask (Some o))) = true ↔ override_ok o)
  ∧ valid (validateTask (createValidTask None)) = true
  ∧ valid (validateTask (createMinimalTask None)) = true.
Proof.
  assert (code_valid default_task) as Hd.
  { apply validateTask_accepts. reflexivity. }
  assert (code_valid minimal_task) as Hm.
  { apply validateTask_accepts. reflexivity. }
  split; [|split; [|split; reflexivity]].
  - rewrite validateTask_accepts.
    by apply (code_valid_spread default_task o).
  - rewrite validateTask_accepts.
    by apply (code_valid_spread minimal_task o).
Qed.

Lemma createMultipleTasks_loop_spec (count : Z) :
  ∀ (fuel : nat) (i : Z) (tasks : list Task),
    (Z.to_nat (count - i) < fuel)%nat →
    createMultipleTasks_loop fuel count i tasks
    = Some (tasks ++ (numbered_task <$> seqZ i (count - i))).
Proof.
  induction fuel as [|fuel IH]; intros i tasks Hfuel; [lia|].
  simpl. destruct (Z.ltb_spec i count) as [Hlt|Hge].
  - rewrite IH by lia. unfold push. rewrite <- app_assoc. simpl.
    rewrite (seqZ_cons i (count - i)) by lia. simpl.
    replace (Z.succ i) with (i + 1)%Z by lia.
    replace (Z.pred (count - i)) with (count - (i + 1))%Z by lia.
    done.
  - rewrite seqZ_nil by lia. simpl. by rewrite app_nil_r.
Qed.

#[local] Instance numbered_title_inj : Inj (=) (=) (λ i, title (numbered_task i)).
Proof.
  intros i j E. unfold numbered_task in E. simpl in E.
  injection E as E. apply (inj (String.app _)) in E.
  apply (inj pretty) in E. lia.
Qed.

(** X2.  [createMultipleTasks(count)] comes back with [count] tasks (none
    for a count of zero or less); the task at index [i] is the default task
    under the title [Task i+1]; every one of them passes [validateTask], and
    no two share a title. *)
Theorem createMultipleTasks_numbered (count : Z) :
  ∃ tasks, createMultipleTasks count = Some tasks
    ∧ length tasks = Z.to_nat count
    ∧ (∀ i : nat, (i < Z.to_nat count)%nat →
         tasks !! i
         = Some (mkTask (Value ("Task " +:+ pretty (Z.of_nat i + 1)%Z))
                   (Value "Test description") (Value "Medium") (Value "Work")
                   (Value false)))
    ∧ Forall (λ t, valid (validateTask t) = true) tasks
    ∧ NoDup (title <$> tasks).
Proof.
  exists (numbered_task <$> seqZ 0 count).
  split; [|split; [|split; [|split]]].
  - unfold createMultipleTasks.
    rewrite createMultipleTasks_loop_spec by lia.
    by replace (count - 0)%Z with count by lia.
  - by rewrite length_fmap, length_seqZ.
  - intros i Hi. rewrite list_lookup_fmap, lookup_seqZ_lt by lia. done.
  - apply Forall_fmap, Forall_forall. intros i _.
    apply validateTask_accepts. unfold numbered_task. split; [|split].
    + simpl. eexists _, _. split; reflexivity.
    + simpl. exists "Medium". split; [done | set_solver].
    + simpl. right. right. exists "Work". split; [done | set_solver].
  - rewrite <- list_fmap_compose. apply (NoDup_fmap_2 _), NoDup_seqZ.
Qed.

(** X3.  Whatever string [createInvalidTask] is given, the record it
    returns fails [validateTask]; for each of the four named kinds the
    oracle reports the named violation and no other, and for any other
    string the empty record comes back, with its title and its importance
    reported missing. *)
Theorem createInvalidTask_rejected (type : string) :
  valid (validateTask (createInvalidTask type)) = false
  ∧ errors (validateTask (createInvalidTask "no-title")) = ["Title is required"]
  ∧ errors (validateTask (createInvalidTask "lowercase-title"))
    = ["Title should start with a capital letter"]
  ∧ errors (validateTask (createInvalidTask "invalid-importance"))
    = ["Invalid importance value"]
  ∧ errors (validateTask (createInvalidTask "invalid-label"))
    = ["Invalid label value"]
  ∧ (type ∉ ["no-title"; "lowercase-title"; "invalid-importance"; "invalid-label"] →
     createInvalidTask type = empty_object
     ∧ errors (validateTask (createInvalidTask type))
       = ["Title is required"; "Importance is required"]).
Proof.
  split; [|repeat split; try reflexivity].
  - unfold createInvalidTask. repeat case_bool_decide; reflexivity.
  - unfold createInvalidTask. repeat case_bool_decide; try reflexivity; set_solver.
  - unfold createInvalidTask. repeat case_bool_decide; try reflexivity; set_solver.
Qed.

Lemma createInvalidTask_rejected_witness :
  createInvalidTask "no-importance" = empty_object
  ∧ errors (validateTask (createInvalidTask "no-importance"))
    = ["Title is required"; "Importance is required"].
Proof.
  destruct (createInvalidTask_rejected "no-importance") as (_ & _ & _ & _ & _ & H).
  apply H. set_solver.
Defined.

(** X4.  Every record of [generateAllCombinations()] and every scenario of
    [generateTestScenarios()] passes [validateTask], with no error
    reported. *)
Theorem generated_tasks_pass_validateTask :
  Forall (λ t, validateTask t = {| valid := true; errors := [] |})
    generateAllCombinations
  ∧ Forall (λ kt, validateTask kt.2 = {| valid := true; errors := [] |})
      generateTestScenarios.
Proof. split; repeat constructor. Qed.

(** X5.  Whatever the draws, [createRandomTask] gives a task that passes
    [validateTask] exactly when the title draw falls inside the pool of
    titles and the importance draw inside the pool of importances; so it
    does whenever each draw is an index of its pool. *)
Theorem createRandomTask_valid_iff (kt kd ki kl : nat) (coin : bool) :
  (valid (validateTask (createRandomTask kt kd ki kl coin)) = true
   ↔ (kt < 5)%nat ∧ (ki < 3)%nat)
  ∧ ((kt < length random_titles)%nat → (kd < length random_descriptions)%nat →
     (ki < 3)%nat → (kl < 4)%nat →
     validateTask (createRandomTask kt kd ki kl coin)
     = {| valid := true; errors := [] |}).
Proof.
  split.
  - rewrite validateTask_accepts. unfold code_valid, createRandomTask. simpl.
    split.
    + intros ((c & rest & Ht & _) & (i & Hi & _) & _). split.
      * do 5 (destruct kt as [|kt]; [lia|]). discriminate.
      * do 3 (destruct ki as [|ki]; [lia|]). discriminate.
    + intros [Ht Hi]. split; [|split].
      * do 5 (destruct kt as [|kt]; [eexists _, _; split; reflexivity|]). lia.
      * do 3 (destruct ki as [|ki]; [eexists; split; [reflexivity|set_solver]|]). lia.
      * do 4 (destruct kl as [|kl];
              [right; right; eexists; split; [reflexivity|set_solver]|]).
        by left.
  - simpl. intros Ht Hd Hi Hl.
    apply validateTask_passes, validateTask_accepts.
    unfold code_valid, createRandomTask. simpl. split; [|split].
    + do 5 (destruct kt as [|kt]; [eexists _, _; split; reflexivity|]). lia.
    + do 3 (destruct ki as [|ki]; [eexists; split; [reflexivity|set_solver]|]). lia.
    + do 4 (destruct kl as [|kl];
            [right; right; eexists; split; [reflexivity|set_solver]|]).
      by left.
Qed.

Lemma createRandomTask_valid_iff_witness :
  validateTask (createRandomTask 4 3 2 3 true) = {| valid := true; errors := [] |}.
Proof.
  apply (createRandomTask_valid_iff 4 3 2 3 true); simpl; lia.
Defined.

Lemma validateTask_errors_eq (t : Task) :
  errors (validateTask t)
  = (if title_missing t then ["Title is required"] else [])
    ++ (if title_not_capital t then ["Title should start with a capital letter"] else [])
    ++ (if importance_missing t then ["Importance is required"] else [])
    ++ (if importance_invalid t then ["Invalid importance value"] else [])
    ++ (if label_invalid t then ["Invalid label value"] else []).
Proof.
  unfold validateTask, validateTask_body. cbn [errors].
  rewrite !push_if_errors, !push_if_task. cbn [task_of errors_of]. unfold push.
  destruct (title_missing t), (title_not_capital t), (importance_missing t),
    (importance_invalid t), (label_invalid t); reflexivity.
Qed.

(** X6.  The errors of [validateTask] are some of its five messages, in
    the order of the checks and none twice; [Importance is required] and
    [Invalid importance value] never come together, so there are four at
    most; and the result does not depend on the description or on
    completed. *)
Theorem validateTask_messages (t : Task) :
  errors (validateTask t) `sublist_of` all_messages
  ∧ NoDup (errors (validateTask t))
  ∧ ¬ ("Importance is required" ∈ errors (validateTask t)
       ∧ "Invalid importance value" ∈ errors (validateTask t))
  ∧ (length (errors (validateTask t)) ≤ 4)%nat
  ∧ (∀ d c, validateTask (mkTask (title t) d (importance t) (label t) c)
            = validateTask t).
Proof.
  assert (importance_missing t && importance_invalid t = false) as Hex.
  { unfold importance_missing, importance_invalid.
    by destruct (truthy (read (importance t))). }
  split; [|split; [|split; [|split]]].
  - rewrite validateTask_errors_eq. unfold all_messages.
    destruct (title_missing t), (title_not_capital t), (importance_missing t),
      (importance_invalid t), (label_invalid t); simpl;
      repeat first [apply sublist_nil | apply sublist_skip | apply sublist_cons].
  - rewrite validateTask_errors_eq.
    destruct (title_missing t), (title_not_capital t), (importance_missing t),
      (importance_invalid t), (label_invalid t);
      apply (bool_decide_unpack _); vm_compute; exact I.
  - rewrite validateTask_errors_eq.
    destruct (title_missing t), (title_not_capital t), (importance_missing t),
      (importance_invalid t), (label_invalid t); try discriminate Hex;
      intros [H1 H2]; revert H1 H2; simpl; set_solver.
  - rewrite validateTask_errors_eq.
    destruct (title_missing t), (title_not_capital t), (importance_missing t),
      (importance_invalid t), (label_invalid t); try discriminate Hex;
      simpl; lia.
  - intros d c.
    assert (∀ u, validateTask u
                 = {| valid := (length (errors (validateTask u)) =? 0)%nat;
                      errors := errors (validateTask u) |}) as Hrec by done.
    rewrite (Hrec t), (Hrec (mkTask _ _ _ _ _)), !validateTask_errors_eq.
    by destruct t.
Qed.

(** ** WaitHelper: bounds and edges *)

Lemma length_delays delay k : length (delays delay k) = k.
Proof. revert delay. induction k as [|k IH]; intros delay; simpl; [done|]. by rewrite IH. Qed.

Lemma fmap_seq_false (f : nat → completion bool) (j : nat) :
  (∀ k, (k < j)%nat → f k = Returned false) →
  f <$> seq 0 j = replicate j (Returned false).
Proof.
  induction j as [|j IH]; intros Hf; [done|].
  rewrite seq_S, fmap_app, replicate_S_end, IH by (intros; apply Hf; lia).
  cbn [fmap list_fmap]. by rewrite Hf by lia.
Qed.

(** X7.  Whatever the action does, [waitWithBackoff] invokes it at most
    [maxAttempts] times, and not at all when [maxAttempts] is zero or less,
    where it returns false at once.  Otherwise the run is: the action's
    false answers on the attempts 0, ..., [j - 1], each followed by one
    sleep, of [initialDelay] after the first and twice as long after each
    next one; then the action's answer on attempt [j], which is the
    outcome, and no sleep after it; [j] is below [maxAttempts], and is
    [maxAttempts - 1] if that last answer is false too.  After [n]
    invocations the call has slept [initialDelay * (2^(n-1) - 1)] in
    all. *)
Theorem waitWithBackoff_bounds {World : Type} (sleep : Z → World → World)
    (action : Async World) (maxAttempts initialDelay : Z) (w : World) :
  ∃ run, waitWithBackoff sleep action maxAttempts initialDelay w = Some run
    ∧ (length (invocations (trace run)) ≤ Z.to_nat maxAttempts)%nat
    ∧ ((maxAttempts ≤ 0)%Z → run = mkRun (Returned false) w [])
    ∧ ((0 < maxAttempts)%Z →
       ∃ j : nat,
         (Z.of_nat j < maxAttempts)%Z
         ∧ (∀ k, (k < j)%nat →
              attempt_result sleep action initialDelay k w = Returned false)
         ∧ (attempt_result sleep action initialDelay j w = Returned false →
              (Z.of_nat j = maxAttempts - 1)%Z)
         ∧ run = mkRun (attempt_result sleep action initialDelay j w)
                   (after_attempt sleep action initialDelay j w)
                   (rounds initialDelay j
                    ++ [Invoked (attempt_result sleep action initialDelay j w)])
         ∧ invocations (trace run)
           = ((λ k, attempt_result sleep action initialDelay k w) <$> seq 0 (S j))
         ∧ waits (trace run) = delays initialDelay j)
    ∧ waits (trace run)
      = delays initialDelay (length (invocations (trace run)) - 1)
    ∧ (invocations (trace run) ≠ [] →
       total_waited (trace run)
       = (initialDelay
          * (2 ^ (Z.of_nat (length (invocations (trace run))) - 1) - 1))%Z).
Proof.
  destruct (waitWithBackoff_cases sleep action maxAttempts initialDelay w)
    as [(Hle & Hrun)|(j & Hj & Hbefore & Hlast & Hrun)].
  - eexists. split; [exact Hrun|]. cbn [trace]. simpl.
    split; [lia|]. split; [done|]. split; [lia|]. split; done.
  - eexists. split; [exact Hrun|]. cbn [trace].
    rewrite invocations_rounds, waits_rounds, length_app, length_replicate.
    simpl length. replace (j + 1 - 1)%nat with j by lia.
    split; [lia|]. split; [lia|]. split.
    { intros _. exists j. split; [done|]. split; [done|]. split; [done|].
      split; [done|]. split; [|done].
      rewrite seq_S, fmap_app. cbn [fmap list_fmap]. f_equal.
      symmetry. by apply fmap_seq_false. }
    split; [done|].
    intros _. unfold total_waited. rewrite waits_rounds, total_delays.
    do 3 f_equal. lia.
Qed.

Lemma waitWithBackoff_bounds_witness :
  (∃ run, waitWithBackoff tick_clock (always (Returned true)) 0 1000 7%Z = Some run
     ∧ run = mkRun (Returned false) 7%Z [])
  ∧ ∃ run, waitWithBackoff tick_clock (raises_from 3000) 5 1000 0%Z = Some run
      ∧ run = mkRun (Threw (OtherError "gone")) 3000%Z
                [Invoked (Returned false); Waited 1000%Z;
                 Invoked (Returned false); Waited 2000%Z;
                 Invoked (Threw (OtherError "gone"))].
Proof.
  split.
  - destruct (waitWithBackoff_bounds tick_clock (always (Returned true)) 0 1000 7%Z)
      as (run & Hrun & _ & Hzero & _).
    exists run. split; [exact Hrun|]. apply Hzero. lia.
  - destruct (waitWithBackoff_bounds tick_clock (raises_from 3000) 5 1000 0%Z)
      as (run & Hrun & _ & _ & Hpos & _).
    exists run. split; [exact Hrun|].
    destruct Hpos as (j & Hj & Hbefore & Hlast & -> & _); [lia|].
    destruct j as [|[|[|j]]].
    + specialize (Hlast eq_refl). lia.
    + specialize (Hlast eq_refl). lia.
    + reflexivity.
    + specialize (Hbefore 2%nat ltac:(lia)). discriminate.
Defined.

(** X8.  With a timeout of zero or less [pollUntil] returns false at once
    and never invokes the condition.  With a positive timeout the first
    check is made before any sleep, and if it returns true the call returns
    true without sleeping. *)
Theorem pollUntil_first_check {World : Type} (now : World → Z)
    (sleep : Z → World → World) (condition : Async World)
    (timeoutMs intervalMs : Z) (w : World) (fuel : nat) :
  ((timeoutMs ≤ 0)%Z →
     pollUntil now sleep (S fuel) condition timeoutMs intervalMs w
     = Some (mkRun (Returned false) w []))
  ∧ ((0 < timeoutMs)%Z → (condition w).1 = Returned true →
     pollUntil now sleep (S fuel) condition timeoutMs intervalMs w
     = Some (mkRun (Returned true) (condition w).2 [Invoked (Returned true)]))
  ∧ ((0 < timeoutMs)%Z →
     ∀ run, pollUntil now sleep (S fuel) condition timeoutMs intervalMs w = Some run →
       ∃ rest, trace run = Invoked (condition w).1 :: rest).
Proof.
  unfold pollUntil. simpl. replace (now w - now w)%Z with 0%Z by lia.
  split; [|split].
  - intros Ht. by destruct (Z.ltb_spec 0 timeoutMs); [lia|].
  - intros Ht Hc. destruct (Z.ltb_spec 0 timeoutMs); [|lia].
    destruct (condition w) as [r w1]. simpl in *. by subst r.
  - intros Ht run. destruct (Z.ltb_spec 0 timeoutMs); [|lia].
    destruct (condition w) as [r w1]. simpl.
    destruct r as [[|]|e]; [intros [= <-]; eauto| |];
      destruct (poll_loop _ _ _ _ _ _ _ _) as [run'|]; try discriminate;
      intros [= <-]; simpl; eauto.
Qed.

Lemma pollUntil_first_check_witness :
  pollUntil id tick_clock 1 (true_from 1000) (-5) 500 0%Z
  = Some (mkRun (Returned false) 0%Z []).
Proof.
  apply (pollUntil_first_check id tick_clock (true_from 1000) (-5) 500 0%Z 0).
  lia.
Defined.

Lemma poll_loop_checks {World : Type} (now : World → Z)
    (sleep : Z → World → World) (condition : Async World)
    (timeoutMs intervalMs startTime : Z) :
  (∀ ms w, now w + ms ≤ now (sleep ms w))%Z →
  (∀ w, now w ≤ now (condition w).2)%Z →
  ∀ (fuel : nat) (w : World) (run : Run World),
    poll_loop now sleep fuel condition timeoutMs intervalMs startTime w = Some run →
    invocations (trace run) ≠ [] →
    (now w - startTime
     + (Z.of_nat (length (invocations (trace run))) - 1) * intervalMs
     < timeoutMs)%Z.
Proof.
  intros Hsleep Hcond.
  induction fuel as [|fuel IH]; intros w run E Hne; [discriminate|].
  simpl in E. destruct (Z.ltb_spec (now w - startTime) timeoutMs) as [Hlt|Hge].
  2:{ injection E as <-. done. }
  pose proof (Hcond w) as Hc.
  destruct (condition w) as [result w1]. simpl in Hc.
  pose proof (Hsleep intervalMs w1) as Hs.
  assert (∀ run', poll_loop now sleep fuel condition timeoutMs intervalMs startTime
                    (wait sleep intervalMs w1) = Some run' →
            (now w - startTime
             + (Z.of_nat (length (invocations
                  (Invoked result :: Waited intervalMs :: trace run'))) - 1)
               * intervalMs < timeoutMs)%Z) as Hstep.
  { intros run' E'.
    change (invocations (Invoked result :: Waited intervalMs :: trace run'))
      with (result :: invocations (trace run')).
    destruct (invocations (trace run')) as [|r0 rs] eqn:Hinv.
    - simpl length. nia.
    - specialize (IH _ _ E'). rewrite Hinv in IH. specialize (IH ltac:(done)).
      unfold wait in IH. simpl length in *. nia. }
  destruct result as [[|]|e].
  - injection E as <-. simpl. lia.
  - destruct (poll_loop _ _ fuel _ _ _ _ _) as [run'|] eqn:E'; [|discriminate].
    injection E as <-. by apply Hstep.
  - destruct (poll_loop _ _ fuel _ _ _ _ _) as [run'|] eqn:E'; [|discriminate].
    injection E as <-. by apply Hstep.
Qed.

(** X9.  Where a timer sleeps at least as long as it is asked to and the
    condition does not turn the clock back, a run of [pollUntil] that made
    [n] checks started the last of them before the deadline and at least
    [(n-1) * intervalMs] after the start: [(n-1) * intervalMs < timeoutMs],
    which bounds the number of checks when the interval is positive. *)
Theorem pollUntil_number_of_checks {World : Type} (now : World → Z)
    (sleep : Z → World → World) (condition : Async World)
    (timeoutMs intervalMs : Z) (w : World) (fuel : nat) (run : Run World) :
  (∀ ms w', now w' + ms ≤ now (sleep ms w'))%Z →
  (∀ w', now w' ≤ now (condition w').2)%Z →
  pollUntil now sleep fuel condition timeoutMs intervalMs w = Some run →
  invocations (trace run) ≠ [] →
  ((Z.of_nat (length (invocations (trace run))) - 1) * intervalMs < timeoutMs)%Z
  ∧ ((0 < intervalMs)%Z →
     (Z.of_nat (length (invocations (trace run)))
      ≤ (timeoutMs + intervalMs - 1) `div` intervalMs)%Z).
Proof.
  intros Hsleep Hcond E Hne.
  pose proof (poll_loop_checks now sleep condition timeoutMs intervalMs (now w)
                Hsleep Hcond fuel w run E Hne) as H.
  split; [lia|]. intros Hi.
  apply Z.div_le_lower_bound; [done|]. nia.
Qed.

Lemma pollUntil_number_of_checks_witness :
  (Z.of_nat (length (invocations
     [Invoked (Threw (OtherError "boom")); Waited 400;
      Invoked (Threw (OtherError "boom")); Waited 400;
      Invoked (Threw (OtherError "boom")); Waited 400])) ≤ (1000 + 400 - 1) `div` 400)%Z.
Proof.
  refine (proj2 (pollUntil_number_of_checks id tick_clock
            (always (Threw (OtherError "boom"))) 1000 400 0%Z 20
            (mkRun (Returned false) 1200%Z _) _ _ _ _) _).
  - intros ms w'. unfold tick_clock, id. lia.
  - intros w'. simpl. unfold id. lia.
  - reflexivity.
  - discriminate.
  - lia.
Defined.

(** ** WaitHelper: waitForAll and waitForAny *)

Lemma Promise_all_returned (rejected_first : list JsError → JsError)
    (rs : list (completion bool)) (bs : list bool) :
  Promise_all rejected_first rs = Returned bs ↔ rs = Returned <$> bs.
Proof.
  unfold Promise_all. split.
  - destruct (rejections rs) as [|e es] eqn:E; [|done]. intros [= <-].
    induction rs as [|[b|e] rs IH]; [done| |done].
    unfold rejections, fulfilments in *. cbn [omap list_omap] in *.
    cbn [fmap list_fmap]. f_equal. by apply IH.
  - intros ->.
    assert (rejections (Returned <$> bs) = []) as ->.
    { induction bs as [|b bs IH]; [done|]. exact IH. }
    f_equal. induction bs as [|b bs IH]; [done|].
    unfold fulfilments in *. cbn [fmap list_fmap omap list_omap]. by f_equal.
Qed.

Lemma Promise_all_threw (rejected_first : list JsError → JsError)
    (rs : list (completion bool)) :
  (∃ e, Promise_all rejected_first rs = Threw e)
  ↔ Exists (λ r, ∃ e, r = Threw e) rs.
Proof.
  unfold Promise_all.
  assert (rejections rs ≠ [] ↔ Exists (λ r, ∃ e, r = Threw e) rs) as <-.
  { induction rs as [|[b|e] rs IH].
    - rewrite Exists_nil. done.
    - rewrite Exists_cons, <- IH. unfold rejections. cbn [omap list_omap].
      split; [by right | intros [[? ?]|?]; done].
    - rewrite Exists_cons. unfold rejections. cbn [omap list_omap].
      split; [eauto | done]. }
  destruct (rejections rs); split; [intros [? ?]; done | done | done | eauto].
Qed.

(** Where no call throws, the mapping calls every condition. *)
Lemma invoke_each_all_called {World : Type}
    (settle : completion bool → completion bool)
    (conditions : list (Condition World)) (w : World) :
  Forall (λ r, is_Thrown r = false) (call_each conditions w).1 →
  invoke_each settle conditions w
  = (Returned ((λ r, settle (awaited r)) <$> (call_each conditions w).1),
     (call_each conditions w).2).
Proof.
  revert w. induction conditions as [|c cs IH]; intros w; [done|].
  cbn [call_each invoke_each].
  destruct (c w) as [r w1]. specialize (IH w1).
  destruct (call_each cs w1) as [rs w2]. cbn [fst snd] in *.
  intros Hno. apply Forall_cons in Hno as [Hr Hrs].
  destruct r as [b|e|e]; [| |done]; rewrite (IH Hrs); done.
Qed.

(** A call that throws ends the mapping. *)
Lemma invoke_each_thrown {World : Type}
    (settle : completion bool → completion bool)
    (pre post : list (Condition World)) (c : Condition World) (w : World) e :
  Forall (λ r, is_Thrown r = false) (call_each pre w).1 →
  (c (call_each pre w).2).1 = Thrown e →
  invoke_each settle (pre ++ c :: post) w = (Threw e, (c (call_each pre w).2).2).
Proof.
  revert w. induction pre as [|c0 pre IH]; intros w.
  - cbn [call_each app invoke_each fst snd]. intros _ Hc.
    destruct (c w) as [r w1]. cbn [fst snd] in *. by subst r.
  - cbn [call_each app invoke_each].
    destruct (c0 w) as [r w1]. specialize (IH w1).
    destruct (call_each pre w1) as [rs w2]. cbn [fst snd] in *.
    intros Hno Hc. apply Forall_cons in Hno as [Hr Hrs].
    destruct r as [b|e0|e0]; [| |done]; rewrite (IH Hrs Hc); done.
Qed.

(** X10.  On one tick the check of [waitForAll] calls the conditions in
    the order of the array, each in the world the one before left.  Where
    no call throws, every condition is called; the check is satisfied
    exactly when every promise is fulfilled with true, and it raises
    exactly when some promise is rejected.  A call that throws, the ones
    before it not throwing, makes the check raise that failure, whatever
    the promises of the earlier conditions hold, and the later conditions
    are not called. *)
Theorem all_hold_every {World : Type} (rejected_first : list JsError → JsError)
    (conditions : list (Condition World)) (w : World) :
  (Forall (λ r, is_Thrown r = false) (call_each conditions w).1 →
     (all_hold rejected_first conditions w).2 = (call_each conditions w).2
     ∧ ((all_hold rejected_first conditions w).1 = Returned true
        ↔ Forall (λ r, r = Resolved true) (call_each conditions w).1)
     ∧ ((∃ e, (all_hold rejected_first conditions w).1 = Threw e)
        ↔ Exists (λ r, ∃ e, r = Rejected e) (call_each conditions w).1))
  ∧ (∀ pre c post e, conditions = pre ++ c :: post →
       Forall (λ r, is_Thrown r = false) (call_each pre w).1 →
       (c (call_each pre w).2).1 = Thrown e →
       all_hold rejected_first conditions w = (Threw e, (c (call_each pre w).2).2)
       ∧ ∀ post', all_hold rejected_first (pre ++ c :: post') w
                  = all_hold rejected_first conditions w).
Proof.
  split.
  - intros Hno. unfold all_hold. rewrite (invoke_each_all_called _ _ _ Hno).
    destruct (call_each conditions w) as [rs w']. cbn [fst snd] in *.
    assert ((∃ e, Promise_all rejected_first ((λ r, id (awaited r)) <$> rs) = Threw e)
            ↔ Exists (λ r, ∃ e, r = Rejected e) rs) as Hthrew.
    { rewrite Promise_all_threw, Exists_fmap, !Exists_exists.
      rewrite Forall_forall in Hno.
      split; intros (r & Hin & e' & E); exists r; (split; [done|]).
      - specialize (Hno r Hin). destruct r as [b|e|e]; [done|eauto|done].
      - subst r. by exists e'. }
    destruct (Promise_all rejected_first _) as [bs|e] eqn:Hall; cbn [fst snd].
    + split; [done|]. split.
      * apply Promise_all_returned in Hall.
        split.
        -- intros [= Hb]. apply Forall_forall. intros r Hin.
           assert (id (awaited r) ∈ Returned <$> bs) as Hr.
           { rewrite <- Hall. apply list_elem_of_fmap. by exists r. }
           apply list_elem_of_fmap in Hr as (b & Hr & Hb').
           rewrite forallb_forall in Hb. apply list_elem_of_In, Hb in Hb'.
           apply bool_decide_eq_true in Hb'. subst b.
           rewrite Forall_forall in Hno. specialize (Hno r Hin).
           by destruct r as [[|]|e|e].
        -- intros Hb. f_equal. apply forallb_forall. intros b Hin.
           apply list_elem_of_In in Hin.
           assert (Returned b ∈ (λ r, id (awaited r)) <$> rs) as Hr.
           { rewrite Hall. apply list_elem_of_fmap. by exists b. }
           apply list_elem_of_fmap in Hr as (r & Hr & Hin').
           rewrite Forall_forall in Hb. rewrite (Hb r Hin') in Hr.
           injection Hr as ->. done.
      * rewrite <- Hthrew. split; [intros [? ?]; done | intros [? ?]; done].
    + split; [done|]. split.
      * split; [done|]. intros Hb. exfalso.
        assert (Exists (λ r, ∃ e, r = Rejected e) rs) as Hex
          by (apply Hthrew; eauto).
        apply Exists_exists in Hex as (r & Hin & e' & ->).
        rewrite Forall_forall in Hb. by specialize (Hb _ Hin).
      * rewrite <- Hthrew. split; eauto.
  - intros pre c post e -> Hno Hc.
    assert (∀ post', all_hold rejected_first (pre ++ c :: post') w
                     = (Threw e, (c (call_each pre w).2).2)) as Hany.
    { intros post'. unfold all_hold.
      by rewrite (invoke_each_thrown _ _ _ _ _ _ Hno Hc). }
    split; [apply Hany|]. intros post'. by rewrite !Hany.
Qed.

Lemma all_hold_every_witness :
  (∃ e, (all_hold first_in_array [resolves true; rejects; resolves false] 0%Z).1
        = Threw e)
  ∧ all_hold first_in_array [resolves true; throws; rejects] 0%Z
    = (Threw (OtherError "thrown"), 0%Z).
Proof.
  split.
  - destruct (all_hold_every first_in_array [resolves true; rejects; resolves false]
                0%Z) as [Hall _].
    destruct Hall as (_ & _ & Hraise); [repeat constructor|].
    apply Hraise. apply Exists_cons_tl, Exists_cons_hd. eauto.
  - destruct (all_hold_every first_in_array [resolves true; throws; rejects] 0%Z)
      as [_ Hthrow].
    apply (Hthrow [resolves true] throws [rejects] (OtherError "thrown"));
      [reflexivity | repeat constructor | reflexivity].
Defined.

(** X11.  On one tick the check of [waitForAny] calls the conditions in
    the order of the array.  Where no call throws, every condition is
    called and the check does not raise: a rejected promise counts as
    false, and the check is satisfied exactly when some promise is
    fulfilled with true.  A call that throws, the ones before it not
    throwing, makes the check raise that failure, even when an earlier
    condition held, and the later conditions are not called. *)
Theorem any_holds_some {World : Type} (rejected_first : list JsError → JsError)
    (conditions : list (Condition World)) (w : World) :
  (Forall (λ r, is_Thrown r = false) (call_each conditions w).1 →
     (∃ b, (any_holds rejected_first conditions w).1 = Returned b)
     ∧ (any_holds rejected_first conditions w).2 = (call_each conditions w).2
     ∧ ((any_holds rejected_first conditions w).1 = Returned true
        ↔ Exists (λ r, r = Resolved true) (call_each conditions w).1))
  ∧ (∀ pre c post e, conditions = pre ++ c :: post →
       Forall (λ r, is_Thrown r = false) (call_each pre w).1 →
       (c (call_each pre w).2).1 = Thrown e →
       any_holds rejected_first conditions w = (Threw e, (c (call_each pre w).2).2)
       ∧ ∀ post', any_holds rejected_first (pre ++ c :: post') w
                  = any_holds rejected_first conditions w).
Proof.
  split.
  - intros Hno. unfold any_holds. rewrite (invoke_each_all_called _ _ _ Hno).
    destruct (call_each conditions w) as [rs w']. cbn [fst snd] in *.
    assert (Promise_all rejected_first ((λ r, catch_false (awaited r)) <$> rs)
            = Returned ((λ r, match r with Resolved b => b | _ => false end) <$> rs))
      as ->.
    { apply Promise_all_returned. rewrite <- list_fmap_compose.
      apply list_fmap_ext. intros _ [b|e|e] _; done. }
    cbn [fst snd]. split; [eauto|]. split; [done|].
    split.
    + intros [= Hb]. apply existsb_exists in Hb as (b & Hin & Hb).
      apply bool_decide_eq_true in Hb. subst b.
      apply list_elem_of_In, list_elem_of_fmap in Hin as (r & Hr & Hin).
      apply Exists_exists. exists r. split; [done|].
      by destruct r as [[|]|e|e].
    + intros Hex. apply Exists_exists in Hex as (r & Hin & ->).
      f_equal. apply existsb_exists. exists true. split; [|done].
      apply list_elem_of_In, list_elem_of_fmap. by exists (Resolved true).
  - intros pre c post e -> Hno Hc.
    assert (∀ post', any_holds rejected_first (pre ++ c :: post') w
                     = (Threw e, (c (call_each pre w).2).2)) as Hany.
    { intros post'. unfold any_holds.
      by rewrite (invoke_each_thrown _ _ _ _ _ _ Hno Hc). }
    split; [apply Hany|]. intros post'. by rewrite !Hany.
Qed.

Lemma any_holds_some_witness :
  any_holds first_in_array [rejects; resolves true] 0%Z = (Returned true, 0%Z)
  ∧ any_holds first_in_array [resolves true; throws; resolves true] 0%Z
    = (Threw (OtherError "thrown"), 0%Z).
Proof.
  split.
  - destruct (any_holds_some first_in_array [rejects; resolves true] 0%Z)
      as [Hany _].
    destruct Hany as (_ & Hworld & Htrue); [repeat constructor|].
    apply injective_projections; [|exact Hworld].
    apply Htrue. apply Exists_cons_tl, Exists_cons_hd. reflexivity.
  - destruct (any_holds_some first_in_array [resolves true; throws; resolves true]
                0%Z) as [_ Hthrow].
    apply (Hthrow [resolves true] throws [resolves true] (OtherError "thrown"));
      [reflexivity | repeat constructor | reflexivity].
Defined.

(** X12.  [waitForAll] and [waitForAny] never raise.  With no condition at
    all and a positive timeout, [waitForAll] returns true at its first
    check without sleeping, while [waitForAny] never returns true; with a
    timeout of zero or less both return false at once. *)
Theorem waitForAll_waitForAny_edges {World : Type} (now : World → Z)
    (sleep : Z → World → World) (rejected_first : list JsError → JsError)
    (conditions : list (Condition World))
    (timeoutMs : Z) (w : World) (fuel : nat) :
  (∀ run, waitForAll now sleep rejected_first fuel conditions timeoutMs w = Some run →
     ∃ b, outcome run = Returned b)
  ∧ (∀ run, waitForAny now sleep rejected_first fuel conditions timeoutMs w = Some run →
     ∃ b, outcome run = Returned b)
  ∧ ((0 < timeoutMs)%Z →
     waitForAll now sleep rejected_first (S fuel) [] timeoutMs w
     = Some (mkRun (Returned true) w [Invoked (Returned true)]))
  ∧ (∀ run, waitForAny now sleep rejected_first fuel [] timeoutMs w = Some run →
     outcome run = Returned false)
  ∧ ((timeoutMs ≤ 0)%Z →
     waitForAll now sleep rejected_first (S fuel) conditions timeoutMs w
     = Some (mkRun (Returned false) w [])
     ∧ waitForAny now sleep rejected_first (S fuel) conditions timeoutMs w
       = Some (mkRun (Returned false) w [])).
Proof.
  unfold waitForAll, waitForAny.
  split; [|split; [|split; [|split]]].
  - intros run E. apply poll_loop_shape in E as (rs & _ & [(-> & _)|(-> & _)]); eauto.
  - intros run E. apply poll_loop_shape in E as (rs & _ & [(-> & _)|(-> & _)]); eauto.
  - intros Ht. unfold pollUntil. simpl.
    replace (now w - now w)%Z with 0%Z by lia.
    by destruct (Z.ltb_spec 0 timeoutMs); [|lia].
  - intros run E.
    apply poll_loop_shape in E as (rs & _ & [(_ & _ & w' & Hw')|(-> & _)]); [|done].
    discriminate.
  - intros Ht. unfold pollUntil. simpl.
    replace (now w - now w)%Z with 0%Z by lia.
    by destruct (Z.ltb_spec 0 timeoutMs); [lia|].
Qed.

Lemma waitForAll_waitForAny_edges_witness :
  waitForAll id tick_clock first_in_array 1 [] 5000 0%Z
  = Some (mkRun (Returned true) 0%Z [Invoked (Returned true)]).
Proof.
  apply (waitForAll_waitForAny_edges id tick_clock first_in_array [] 5000 0%Z 0). lia.
Defined.

(** ** TestDataService: writing and reading back *)

(** X13.  The script of [setStoredTasks] puts the serialized tasks under
    [tasks], over whatever was there, and touches no other key and nothing
    of the session storage.  Where the reload keeps that entry and the
    serialized text is not empty, [getStoredTasks] then comes back as
    [JSON.parse] does on the serialized tasks. *)
Theorem setStoredTasks_then_getStoredTasks {JSValue : Type} (emptyArray : JSValue)
    (JSON_parse : string → completion JSValue)
    (JSON_stringify : list Task → string) (reload : Storages → Storages)
    (tasks : list Task) (p : Storages) :
  localStorage (storeTasks JSON_stringify tasks p) !! "tasks"
  = Some (JSON_stringify tasks)
  ∧ (∀ k, k ≠ "tasks" →
       localStorage (storeTasks JSON_stringify tasks p) !! k = localStorage p !! k)
  ∧ sessionStorage (storeTasks JSON_stringify tasks p) = sessionStorage p
  ∧ ((∀ q, localStorage (reload q) !! "tasks" = localStorage q !! "tasks") →
     JSON_stringify tasks ≠ "" →
     getStoredTasks emptyArray JSON_parse
       (setStoredTasks JSON_stringify reload tasks p)
     = JSON_parse (JSON_stringify tasks)).
Proof.
  split; [apply lookup_insert_eq|]. split; [|split; [done|]].
  - intros k Hk. simpl. by rewrite lookup_insert_ne.
  - intros Hreload Hne. unfold getStoredTasks, setStoredTasks.
    rewrite Hreload. simpl. rewrite lookup_insert_eq. simpl.
    by rewrite bool_decide_false.
Qed.

Lemma setStoredTasks_then_getStoredTasks_witness :
  getStoredTasks [] parse_empty_array
    (setStoredTasks stringify_empty_array id [] stored_garbage)
  = Returned [].
Proof.
  apply (setStoredTasks_then_getStoredTasks [] parse_empty_array
           stringify_empty_array id [] stored_garbage).
  - intros q. reflexivity.
  - discriminate.
Defined.

(** ** TaskManagerPage: which cards a title finds *)

Lemma indices_where_shift {A} (keep : A → bool) (l : list A) (g : nat → nat) :
  omap (λ '(i, x), if keep x then Some i else None) (imap (λ i x, (g i, x)) l)
  = g <$> indices_where keep l.
Proof.
  unfold indices_where. revert g.
  induction l as [|x l IH]; intros g; [done|].
  rewrite !imap_cons. cbn [omap list_omap].
  rewrite (imap_ext _ (λ i y, ((g ∘ S) i, y))) by done.
  rewrite (imap_ext (pair ∘ S) (λ i y, (S i, y))) by done.
  rewrite (IH (g ∘ S)), (IH S).
  destruct (keep x); simpl; by rewrite <- list_fmap_compose.
Qed.

Lemma indices_where_cons {A} (keep : A → bool) (x : A) (l : list A) :
  indices_where keep (x :: l)
  = (if keep x then [0%nat] else []) ++ (S <$> indices_where keep l).
Proof.
  unfold indices_where at 1. rewrite imap_cons. cbn [omap list_omap].
  rewrite (imap_ext (pair ∘ S) (λ i y, (S i, y))) by done.
  rewrite (indices_where_shift keep l S). by destruct (keep x).
Qed.

Lemma indices_where_length {A} (keep : A → bool) (l : list A) :
  length (indices_where keep l) = length (filter (λ x, keep x = true) l).
Proof.
  induction l as [|x l IH]; [done|].
  rewrite indices_where_cons, length_app, length_fmap, IH, filter_cons.
  destruct (decide (keep x = true)) as [Hk|Hk].
  - by rewrite Hk.
  - by rewrite (not_true_is_false _ Hk).
Qed.

Lemma indices_where_nil {A} (keep : A → bool) (l : list A) :
  Forall (λ x, keep x = false) l → indices_where keep l = [].
Proof.
  induction 1 as [|x l Hx _ IH]; [done|].
  by rewrite indices_where_cons, Hx, IH.
Qed.

Lemma isTaskVisible_exactly_one_card (taskTitle : string) (d : Dom) :
  isTaskVisible taskTitle d = true ↔ ∃ i, getTaskByTitle taskTitle d = [i].
Proof.
  unfold isTaskVisible, getTaskByTitle.
  destruct (indices_where _ (cards d)) as [|i [|j l]]; simpl.
  - split; [done | intros [? ?]; done].
  - split; eauto.
  - split; [done | intros [? ?]; done].
Qed.

(** X14.  For a plain title on a page of plain headings, [isTaskVisible]
    never raises; it answers true exactly when one card, and one only, has
    the title in its heading (in whatever case, and as a part of the
    heading), so that it answers false for a title shown on two cards. *)
Theorem isTaskVisible_exactly_one (taskTitle : string) (d : Dom) :
  plain_text taskTitle = true →
  Forall (λ c, plain_text (h3 c) = true) (cards d) →
  (isTaskVisible taskTitle d = true
   ↔ length (filter (λ c, has_text (h3 c) taskTitle = true) (cards d)) = 1%nat)
  ∧ (isTaskVisible taskTitle d = true ↔ ∃ i, getTaskByTitle taskTitle d = [i])
  ∧ (∀ i j c1 c2, i ≠ j →
       cards d !! i = Some c1 → cards d !! j = Some c2 →
       has_text (h3 c1) taskTitle = true → has_text (h3 c2) taskTitle = true →
       isTaskVisible taskTitle d = false).
Proof.
  intros _ _.
  pose proof (isTaskVisible_exactly_one_card taskTitle d) as Hone.
  split; [|split; [exact Hone|]].
  - rewrite Hone. unfold getTaskByTitle.
    rewrite <- indices_where_length.
    destruct (indices_where _ (cards d)) as [|i [|j l]]; simpl.
    + split; [intros [? ?]; done | done].
    + split; eauto.
    + split; [intros [? ?]; done | done].
  - intros i j c1 c2 Hij H1 H2 Ht1 Ht2.
    apply not_true_is_false. intros Hv.
    apply Hone in Hv as (k & Hk).
    assert (i ∈ getTaskByTitle taskTitle d) as Hi
      by (apply elem_of_indices_where; eauto).
    assert (j ∈ getTaskByTitle taskTitle d) as Hj
      by (apply elem_of_indices_where; eauto).
    rewrite Hk in Hi, Hj. apply list_elem_of_singleton in Hi, Hj. congruence.
Qed.

Lemma isTaskVisible_exactly_one_witness :
  isTaskVisible "Task 4" two_cards_one_title = false.
Proof.
  destruct (isTaskVisible_exactly_one "Task 4" two_cards_one_title) as (_ & _ & H);
    [reflexivity | repeat constructor |].
  apply (H 0%nat 1%nat (card_of "Task 4") (card_of "Task 4")); [lia|reflexivity..].
Defined.

(** X15.  For a plain title that no card of a page of plain headings has
    in its heading, [deleteTask], [toggleTaskCompletion] and [editTask]
    time out, whatever the application does on a click, and the page stays
    as it was: nothing is clicked, nothing filled, nothing saved. *)
Theorem title_not_shown_times_out (on_click : Element → Dom → Dom)
    (offers : nat → string → bool) (taskTitle : string) (newTask : Task) (d : Dom) :
  plain_text taskTitle = true →
  Forall (λ c, plain_text (h3 c) = true) (cards d) →
  Forall (λ c, has_text (h3 c) taskTitle = false) (cards d) →
  deleteTask on_click taskTitle d = (Threw TimeoutError, d)
  ∧ toggleTaskCompletion on_click taskTitle d = (Threw TimeoutError, d)
  ∧ editTask on_click offers taskTitle newTask d = (Threw TimeoutError, d).
Proof.
  intros _ _ Hno.
  assert (getTaskByTitle taskTitle d = []) as Hnil
    by (apply (indices_where_nil (λ c, has_text (h3 c) taskTitle)), Hno).
  unfold deleteTask, toggleTaskCompletion, editTask, clickEditTask, andThen, click.
  by rewrite Hnil.
Qed.

Lemma title_not_shown_times_out_witness :
  deleteTask remove_clicked_card "Task 9" two_cards_one_title
  = (Threw TimeoutError, two_cards_one_title).
Proof.
  apply (title_not_shown_times_out remove_clicked_card offers_enumerated "Task 9"
           empty_object two_cards_one_title).
  - reflexivity.
  - repeat constructor.
  - repeat constructor.
Defined.

(** ** TaskManagerPage: clearAllTasks *)

Lemma clearAllTasks_returned (on_click : Element → Dom → Dom) :
  ∀ (fuel : nat) (d d' : Dom),
    clearAllTasks on_click fuel d = Some (Returned tt, d') → cards d' = [].
Proof.
  induction fuel as [|fuel IH]; intros d d' E; [discriminate|].
  simpl in E. destruct (cards d) as [|c cs] eqn:Hc.
  - by injection E as <-.
  - destruct (negb (bool_decide (h3 c = ""))); [|eauto].
    destruct (deleteTask on_click (h3 c) d) as [[[]|e] d1]; [eauto|discriminate].
Qed.

Lemma clearAllTasks_stuck (on_click : Element → Dom → Dom) (d : Dom) c cs :
  cards d = c :: cs → h3 c = "" →
  ∀ fuel, clearAllTasks on_click fuel d = None.
Proof.
  intros Hc Ht. induction fuel as [|fuel IH]; [done|].
  cbn [clearAllTasks]. by rewrite Hc, Ht.
Qed.

Lemma clearAllTasks_cons (on_click : Element → Dom → Dom) (fuel : nat) (d : Dom)
    (c : Card) (cs : list Card) :
  cards d = c :: cs → h3 c ≠ "" →
  clearAllTasks on_click (S fuel) d
  = match deleteTask on_click (h3 c) d with
    | (Returned _, d') => clearAllTasks on_click fuel d'
    | (Threw e, d') => Some (Threw e, d')
    end.
Proof.
  intros Hc Ht. cbn [clearAllTasks]. rewrite Hc.
  by assert (truthy (Some (h3 c)) = true) as -> by (apply truthy_Some; eauto).
Qed.

(** X16.  Whatever the application does on a click: when [clearAllTasks]
    comes back without a failure, no card is left on the page; it raises
    only where [deleteTask] on the heading of the first card raised; and
    it never comes back from a page whose first card has an empty
    heading. *)
Theorem clearAllTasks_exits (on_click : Element → Dom → Dom) (d : Dom) :
  (∀ fuel d', clearAllTasks on_click fuel d = Some (Returned tt, d') →
     cards d' = [] ∧ getTaskCount d' = 0%nat)
  ∧ (∀ fuel e c cs, cards d = c :: cs → h3 c ≠ "" →
       deleteTask on_click (h3 c) d = (Threw e, d) →
       clearAllTasks on_click (S fuel) d = Some (Threw e, d))
  ∧ (∀ c cs, cards d = c :: cs → h3 c = "" →
       ∀ fuel, clearAllTasks on_click fuel d = None).
Proof.
  split; [|split].
  - intros fuel d' E. apply clearAllTasks_returned in E.
    unfold getTaskCount. by rewrite E.
  - intros fuel e c cs Hc Ht Hdel. cbn [clearAllTasks]. rewrite Hc.
    assert (truthy (Some (h3 c)) = true) as -> by (apply truthy_Some; eauto).
    by rewrite Hdel.
  - intros c cs. apply clearAllTasks_stuck.
Qed.

Lemma clearAllTasks_exits_witness :
  clearAllTasks remove_clicked_card 1000 blank_title_first = None
  ∧ clearAllTasks remove_clicked_card 1 two_cards_one_title
    = Some (Threw StrictModeViolation, two_cards_one_title).
Proof.
  split.
  - destruct (clearAllTasks_exits remove_clicked_card blank_title_first)
      as (_ & _ & H).
    apply (H (card_of "") [card_of "Task 2"]); reflexivity.
  - destruct (clearAllTasks_exits remove_clicked_card two_cards_one_title)
      as (_ & H & _).
    apply (H 0%nat StrictModeViolation (card_of "Task 4") [card_of "Task 4"]);
      [reflexivity | discriminate | reflexivity].
Defined.

Lemma deleteTask_first_card (t : string) (rest : list string) ins tas sels :
  Forall (λ u, has_text u t = false) rest →
  deleteTask remove_clicked_card t (mkDom (card_of <$> (t :: rest)) ins tas sels)
  = (Returned tt, mkDom (card_of <$> rest) ins tas sels).
Proof.
  intros Hrest.
  assert (getTaskByTitle t (mkDom (card_of <$> (t :: rest)) ins tas sels) = [0%nat])
    as Hfirst.
  { unfold getTaskByTitle. cbn [cards fmap list_fmap].
    rewrite indices_where_cons. cbn [h3 card_of]. unfold has_text at 1.
    rewrite contains_refl.
    rewrite (indices_where_nil (λ c, has_text (h3 c) t)); [done|].
    apply Forall_fmap. by eapply Forall_impl; [exact Hrest|]. }
  unfold deleteTask, andThen, click. rewrite Hfirst. reflexivity.
Qed.

(** X17.  On an application that removes the card whose Delete button is
    clicked, and a page of cards whose titles are plain, not empty, and of
    which none occurs inside a later one, [clearAllTasks] comes back,
    having removed every card and changed nothing else. *)
Theorem clearAllTasks_removes_all (titles : list string) ins tas sels :
  Forall (λ t, plain_text t = true) titles →
  deletable titles →
  clearAllTasks remove_clicked_card (S (length titles))
    (mkDom (card_of <$> titles) ins tas sels)
  = Some (Returned tt, mkDom [] ins tas sels).
Proof.
  intros _.
  induction titles as [|t rest IH]; intros Hok; [done|].
  destruct Hok as (Ht & Hrest & Hok).
  cbn [length].
  rewrite (clearAllTasks_cons _ _ _ (card_of t) (card_of <$> rest)) by done.
  cbn [h3 card_of].
  rewrite deleteTask_first_card by done. by apply IH.
Qed.

Lemma clearAllTasks_removes_all_witness :
  clearAllTasks remove_clicked_card 4
    (mkDom (card_of <$> ["Task 10"; "Task 1"; "Buy milk"]) [] [] [])
  = Some (Returned tt, mkDom [] [] [] []).
Proof.
  apply (clearAllTasks_removes_all ["Task 10"; "Task 1"; "Buy milk"] [] [] []).
  - repeat constructor.
  - simpl. repeat split; try discriminate; repeat constructor.
Defined.

(** ** TaskManagerPage: what fillEditForm writes *)

Lemma set_value_ok (k : Control) (n : nat) (v : string) (d : Dom) :
  (n < length (controls k d))%nat →
  set_value k n v d = (Returned tt, with_controls k (<[n := v]> (controls k d)) d).
Proof.
  intros Hn. unfold set_value, nth_of.
  by destruct (lookup_lt_is_Some_2 _ _ Hn) as [x ->].
Qed.

Lemma set_value_missing (k : Control) (n : nat) (v : string) (d : Dom) :
  (length (controls k d) ≤ n)%nat →
  set_value k n v d = (Threw TimeoutError, d).
Proof.
  intros Hn. unfold set_value, nth_of. by rewrite lookup_ge_None_2.
Qed.

Lemma selectOption_offered (offers : nat → string → bool) n v d :
  offers n v = true → selectOption offers n v d = set_value Select n v d.
Proof. intros E. unfold selectOption. by rewrite E. Qed.

Lemma selectOption_refused (offers : nat → string → bool) n v d :
  offers n v = false → selectOption offers n v d = (Threw TimeoutError, d).
Proof. intros E. unfold selectOption. by rewrite E. Qed.

(** X18.  On a page with an edit form open (a text input, a text area and
    two selects inside the cards), whose selects have an option for the
    importance and the label of the task when these are not empty,
    [fillEditForm] comes back and leaves the title and the description of
    the task in the first text input and text area when the task has them,
    its importance and label in the first and second select when they are
    not empty, and everything else as it was.  When the first select has
    no option for the importance of the task, [fillEditForm] times out
    with the title and the description written and both selects showing
    what they showed.  On a page without a text input it times out for a
    task that has a title, before anything is written. *)
Theorem fillEditForm_fills (offers : nat → string → bool) (task : Task) (d : Dom) :
  ((0 < length (textInputs d))%nat → (0 < length (textareas d))%nat →
   (1 < length (selects d))%nat →
   (truthy (read (importance task)) = true →
      offers 0%nat (default "" (read (importance task))) = true) →
   (truthy (read (label task)) = true →
      offers 1%nat (default "" (read (label task))) = true) →
   fillEditForm offers task d = (Returned tt, filled_form task d))
  ∧ ((0 < length (textInputs d))%nat → (0 < length (textareas d))%nat →
     truthy (read (importance task)) = true →
     offers 0%nat (default "" (read (importance task))) = false →
     fillEditForm offers task d
     = (Threw TimeoutError, filled_form (text_fields_only task) d))
  ∧ (textInputs d = [] → read (title task) ≠ None →
     fillEditForm offers task d = (Threw TimeoutError, d)).
Proof.
  split; [|split].
  - intros Hi Ha Hs Himp Hlab. destruct d as [cs ins tas sels]. simpl in *.
    unfold fillEditForm, filled_form, clear, fill, when.
    cbn [cards textInputs textareas selects].
    destruct (read (title task)) as [vt|];
      destruct (read (description task)) as [vd|];
      destruct (truthy (read (importance task)));
      destruct (truthy (read (label task)));
      repeat match goal with
             | |- context [bool_decide (Some ?v ≠ None)] =>
                 rewrite (bool_decide_true (Some v ≠ None)) by done
             | |- context [bool_decide (None ≠ None)] =>
                 rewrite (bool_decide_false (@None string ≠ None)) by (intros H; by apply H)
             end;
      unfold andThen, idle;
      repeat (first [ rewrite set_value_ok by (simpl; rewrite ?length_insert; lia)
                    | rewrite selectOption_offered by auto ];
              cbn [controls with_controls cards textInputs textareas selects]);
      rewrite ?list_insert_insert_eq; reflexivity.
  - intros Hi Ha Himp Hno. destruct d as [cs ins tas sels]. simpl in *.
    unfold fillEditForm, filled_form, text_fields_only, clear, fill, when.
    cbn [cards textInputs textareas selects title description importance label read].
    rewrite Himp.
    destruct (read (title task)) as [vt|];
      destruct (read (description task)) as [vd|];
      repeat match goal with
             | |- context [bool_decide (Some ?v ≠ None)] =>
                 rewrite (bool_decide_true (Some v ≠ None)) by done
             | |- context [bool_decide (None ≠ None)] =>
                 rewrite (bool_decide_false (@None string ≠ None)) by (intros H; by apply H)
             end;
      unfold andThen, idle;
      repeat (first [ rewrite set_value_ok by (simpl; rewrite ?length_insert; lia)
                    | rewrite selectOption_refused by auto ];
              cbn [controls with_controls cards textInputs textareas selects]);
      rewrite ?list_insert_insert_eq; reflexivity.
  - intros Hnil Hsome. unfold fillEditForm, when, andThen, clear.
    rewrite bool_decide_true by done.
    rewrite set_value_missing by (simpl; rewrite Hnil; simpl; lia). done.
Qed.

Lemma fillEditForm_fills_witness :
  fillEditForm offers_enumerated
    (mkTask (Value "New title") Missing (Value "High") Missing Missing) open_form
  = (Returned tt,
     mkDom [mkCard "Old title" "about" "Medium" "Work" ["Save"; "Cancel"]]
       ["New title"] ["about"] ["High"; "Work"])
  ∧ fillEditForm offers_enumerated (createInvalidTask "invalid-importance") open_form
    = (Threw TimeoutError,
       mkDom [mkCard "Old title" "about" "Medium" "Work" ["Save"; "Cancel"]]
         ["Valid Title"] ["about"] ["Medium"; "Work"]).
Proof.
  split.
  - apply (fillEditForm_fills offers_enumerated
             (mkTask (Value "New title") Missing (Value "High") Missing Missing)
             open_form); simpl; solve [lia | reflexivity | discriminate].
  - apply (fillEditForm_fills offers_enumerated
             (createInvalidTask "invalid-importance") open_form);
      simpl; solve [lia | reflexivity].
Defined.

(** ** TaskManagerPage: the form that adds a task *)

(** X19.  Where the selects of the form have an option for the
    importance and the label of the task when these are not empty,
    [fillTaskForm] comes back, having written the title and the
    description the task has and the importance and label that are not
    empty, every other control showing what it showed, a value left by an
    earlier task included; filling the same task twice is filling it once.
    Where the importance select has no option for the importance of the
    task, [fillTaskForm] times out with the title and the description
    written and both selects as they were; where it is the label select
    that has none, with the importance written too.  [clearForm] empties
    the title and the description and sets the selects to Medium and Work
    where they have these options, and times out where the importance
    select has no Medium, the selects as they were. *)
Theorem fillTaskForm_controls (offers : nat → string → bool) (task : Task)
    (f : TaskForm) :
  ((truthy (read (importance task)) = true →
      offers 0%nat (default "" (read (importance task))) = true) →
   (truthy (read (label task)) = true →
      offers 1%nat (default "" (read (label task))) = true) →
   fillTaskForm offers task f = (Returned tt, given task f)
   ∧ fillTaskForm offers task (given task f) = (Returned tt, given task f)
   ∧ (offers 0%nat "Medium" = true → offers 1%nat "Work" = true →
      form_then (clearForm offers) (fillTaskForm offers task) f
      = (Returned tt,
         {| titleInput := default "" (read (title task));
            descriptionTextarea := default "" (read (description task));
            importanceSelect := or_else (read (importance task)) "Medium";
            labelSelect := or_else (read (label task)) "Work" |})))
  ∧ (truthy (read (importance task)) = true →
     offers 0%nat (default "" (read (importance task))) = false →
     fillTaskForm offers task f = (Threw TimeoutError, given (text_fields_only task) f))
  ∧ ((truthy (read (importance task)) = true →
        offers 0%nat (default "" (read (importance task))) = true) →
     truthy (read (label task)) = true →
     offers 1%nat (default "" (read (label task))) = false →
     fillTaskForm offers task f = (Threw TimeoutError, given (without_label task) f))
  ∧ (offers 0%nat "Medium" = true → offers 1%nat "Work" = true →
     clearForm offers f = (Returned tt, mkTaskForm "" "" "Medium" "Work"))
  ∧ (offers 0%nat "Medium" = false →
     clearForm offers f
     = (Threw TimeoutError, mkTaskForm "" "" (importanceSelect f) (labelSelect f))).
Proof.
  unfold fillTaskForm, clearForm, given, text_fields_only, without_label, or_else,
    form_then, form_when, select_importance, select_label,
    fill_titleInput, fill_descriptionTextarea.
  cbn [title description importance label completed read
       titleInput descriptionTextarea importanceSelect labelSelect].
  destruct f as [ft fd fi fl].
  cbn [titleInput descriptionTextarea importanceSelect labelSelect].
  destruct (read (title task)) as [vt|];
    destruct (read (description task)) as [vd|];
    destruct (truthy (read (importance task))) eqn:Ti;
    destruct (truthy (read (label task))) eqn:Tl;
    repeat match goal with
           | |- context [bool_decide (Some ?v ≠ None)] =>
               rewrite (bool_decide_true (Some v ≠ None)) by done
           | |- context [bool_decide (None ≠ None)] =>
               rewrite (bool_decide_false (@None string ≠ None)) by (intros H; by apply H)
           end;
    cbn [default truthy];
    (split; [|split; [|split; [|split]]]);
    intros; cbn [read];
    repeat match goal with
           | H : true = true → _ |- _ => specialize (H eq_refl)
           | H : offers _ _ = _ |- _ => rewrite !H
           end;
    try discriminate; try done;
    repeat split; intros;
    repeat match goal with
           | H : offers _ _ = _ |- _ => rewrite !H
           end; done.
Qed.

Lemma fillTaskForm_controls_witness :
  fillTaskForm offers_enumerated (createInvalidTask "invalid-label") form_showing_high
  = (Threw TimeoutError, mkTaskForm "Valid Title" "earlier" "Medium" "Home").
Proof.
  destruct (fillTaskForm_controls offers_enumerated (createInvalidTask "invalid-label")
              form_showing_high) as (_ & _ & Hlabel & _).
  apply Hlabel; reflexivity.
Defined.

(** ** TaskManagerPage: deleting a card that is the only match *)

(** X20.  For a plain title on a page of plain headings: when one card
    only has the title in its heading and that card has one Delete button,
    [deleteTask] clicks that button and comes back; on an application that
    removes the card whose button was clicked, the page then shows one
    card less, the other cards in their order. *)
Theorem deleteTask_only_match (on_click : Element → Dom → Dom)
    (taskTitle : string) (d : Dom) (i k : nat) (c : Card) :
  plain_text taskTitle = true →
  Forall (λ c, plain_text (h3 c) = true) (cards d) →
  getTaskByTitle taskTitle d = [i] →
  cards d !! i = Some c →
  indices_where (λ b, has_text b "Delete") (buttons c) = [k] →
  deleteTask on_click taskTitle d = (Returned tt, on_click (i, k) d)
  ∧ isTaskVisible taskTitle d = true
  ∧ cards (deleteTask remove_clicked_card taskTitle d).2 = delete i (cards d)
  ∧ S (getTaskCount (deleteTask remove_clicked_card taskTitle d).2)
    = getTaskCount d.
Proof.
  intros _ _ Hone Hc Hk.
  assert (∀ h, deleteTask h taskTitle d = (Returned tt, h (i, k) d)) as Hdel.
  { intros h. unfold deleteTask, andThen, click, buttons_within.
    rewrite Hone. simpl. by rewrite Hc, Hk. }
  split; [apply Hdel|]. split.
  - apply isTaskVisible_exactly_one_card. eauto.
  - rewrite Hdel. simpl. split; [done|].
    unfold getTaskCount. simpl. rewrite length_delete by eauto.
    apply lookup_lt_Some in Hc. lia.
Qed.

Lemma deleteTask_only_match_witness :
  deleteTask remove_clicked_card "Task 2"
    (mkDom [card_of "Task 1"; card_of "Task 2"; card_of "Task 3"] [] [] [])
  = (Returned tt, mkDom [card_of "Task 1"; card_of "Task 3"] [] [] []).
Proof.
  apply (deleteTask_only_match remove_clicked_card "Task 2"
           (mkDom [card_of "Task 1"; card_of "Task 2"; card_of "Task 3"] [] [] [])
           1%nat 2%nat (card_of "Task 2"));
    [reflexivity | repeat constructor | reflexivity..].
Defined.
